(** * El Academico: the document search controller and the landing page

  A shallow embedding of the two React components of the front end,
  [DocumentSearch] (search term, filters, pagination, debounce, URL
  mirroring) and [HomePage] (two concurrent fetches behind a mounted
  flag), followed by the properties of their specification.

  React is modelled the way the components use it: every event (input
  change, click, timer, network completion, unmount) runs to completion,
  the component re-renders, and the effects whose dependencies changed
  are re-run, clean-ups first. *)

From Stdlib Require Import ZArith String Ascii List Bool Arith Lia DecimalString.
Import ListNotations.

Local Open Scope string_scope.
Local Open Scope list_scope.

(** ** JavaScript values, objects and [URLSearchParams] *)

Module JS.

(** The values that travel in a search-parameter object: strings (term and
    filters) and numbers (page and limit). *)
Inductive value : Type :=
| VStr (s : string)
| VNum (n : Z).

(** [if (value)]: the empty string and 0 are falsy. *)
Definition truthy (v : value) : bool :=
  match v with
  | VStr s => negb (s =? "")
  | VNum n => negb (n =? 0)%Z
  end.

(** [String(value)], as [URLSearchParams.set] applies it. *)
Definition to_string (v : value) : string :=
  match v with
  | VStr s => s
  | VNum n => NilZero.string_of_int (Z.to_int n)
  end.

(** [a || ''] on the result of [URLSearchParams.get] (a string or null). *)
Definition or_empty (o : option string) : string :=
  match o with
  | Some s => s
  | None => ""
  end.

(** A plain object: its own properties in insertion order. *)
Definition obj (V : Type) : Type := list (string * V).

Definition keys {V} (o : obj V) : list string := map fst o.

(** [o[k]], [None] for undefined. *)
Fixpoint get {V} (k : string) (o : obj V) : option V :=
  match o with
  | [] => None
  | (k', v) :: o' => if k' =? k then Some v else get k o'
  end.

(** [o[k] = v]: an existing property keeps its place, a new one goes last.
    (JavaScript enumerates integer-like keys before the others; the order
    kept here is that of the other keys, and lookups do not depend on it.) *)
Fixpoint set {V} (k : string) (v : V) (o : obj V) : obj V :=
  match o with
  | [] => [(k, v)]
  | (k', v') :: o' =>
      if k' =? k then (k, v) :: o' else (k', v') :: set k v o'
  end.

(** [...source] inside an object literal whose properties so far are
    [target]: the own properties of [source] are assigned in order. *)
Definition assign {V} (target source : obj V) : obj V :=
  fold_left (fun o kv => set (fst kv) (snd kv) o) source target.

(** [{ ...a, ...b }] *)
Definition spread2 {V} (a b : obj V) : obj V :=
  assign (assign [] a) b.

(** An object has each property once. *)
Definition well_formed {V} (o : obj V) : Prop := NoDup (keys o).

(** What a promise may reject with (or a [throw] may carry): an [Error]
    object with its [name] and [message], a string, null or undefined. *)
Inductive thrown : Type :=
| ErrorObject (name message : string)
| ThrownString (s : string)
| ThrownNull
| ThrownUndefined.

(** [Error.prototype.toString] and [String] on the other values. *)
Definition string_of_thrown (e : thrown) : string :=
  match e with
  | ErrorObject name message =>
      if name =? "" then message
      else if message =? "" then name
      else (name ++ ": " ++ message)%string
  | ThrownString s => s
  | ThrownNull => "null"
  | ThrownUndefined => "undefined"
  end.

(** [err?.message || String(err)] *)
Definition message_or_string (e : thrown) : string :=
  match e with
  | ErrorObject _ message =>
      if negb (message =? "") then message else string_of_thrown e
  | _ => string_of_thrown e
  end.

(** *** [encodeURIComponent]

    Strings are sequences of bytes, the UTF-8 encoding of the text; the
    function keeps the unreserved characters and writes every other byte as
    [%] and two upper-case hexadecimal digits. *)

Definition in_range (lo hi n : nat) : bool := (lo <=? n)%nat && (n <=? hi)%nat.

Definition unreserved (a : ascii) : bool :=
  let n := nat_of_ascii a in
  in_range 65 90 n || in_range 97 122 n || in_range 48 57 n
  || existsb (Ascii.eqb a) ["-"; "_"; "."; "!"; "~"; "*"; "'"; "("; ")"]%char.

Definition hex_digit (n : nat) : ascii :=
  if (n <? 10)%nat then ascii_of_nat (48 + n) else ascii_of_nat (55 + n).

Definition encode_byte (a : ascii) : string :=
  if unreserved a then String a ""
  else
    let n := nat_of_ascii a in
    String "%" (String (hex_digit (n / 16)) (String (hex_digit (n mod 16)) "")).

Fixpoint encodeURIComponent (s : string) : string :=
  match s with
  | "" => ""
  | String a s' => (encode_byte a ++ encodeURIComponent s')%string
  end.

Fixpoint has_char (c : ascii) (s : string) : bool :=
  match s with
  | "" => false
  | String a s' => Ascii.eqb a c || has_char c s'
  end.

End JS.

Module URLSearchParams.

(** The list of name-value pairs of a query string. *)
Definition t : Type := list (string * string).

Fixpoint get (k : string) (u : t) : option string :=
  match u with
  | [] => None
  | (k', v) :: u' => if k' =? k then Some v else get k u'
  end.

Fixpoint getAll (k : string) (u : t) : list string :=
  match u with
  | [] => []
  | (k', v) :: u' => if k' =? k then v :: getAll k u' else getAll k u'
  end.

(** [delete(name)] removes every pair with that name. *)
Definition delete (k : string) (u : t) : t :=
  filter (fun kv => negb (fst kv =? k)) u.

(** [set(name, value)]: the first pair with that name takes the value and
    the others are removed; without such a pair one is appended. *)
Fixpoint set (k v : string) (u : t) : t :=
  match u with
  | [] => [(k, v)]
  | (k', v') :: u' =>
      if k' =? k then (k, v) :: delete k u' else (k', v') :: set k v u'
  end.

(** *** Parsing a query string

    The [application/x-www-form-urlencoded] parser behind
    [new URLSearchParams(string)]. *)

Definition hex_value (a : ascii) : option nat :=
  let n := nat_of_ascii a in
  if JS.in_range 48 57 n then Some (n - 48)
  else if JS.in_range 65 70 n then Some (n - 55)
  else if JS.in_range 97 102 n then Some (n - 87)
  else None.

(** Percent-decoding: a [%] followed by two hexadecimal digits becomes the
    byte they denote; any other byte, a stray [%] included, is kept.  (The
    bytes are then read as UTF-8; a sequence that is not valid UTF-8, which
    the browser replaces by U+FFFD, is kept as it is here.) *)
Fixpoint percent_decode (s : string) : string :=
  match s with
  | "" => ""
  | String a rest =>
      if Ascii.eqb a "%" then
        match rest with
        | String h (String l rest') =>
            match hex_value h, hex_value l with
            | Some x, Some y =>
                String (ascii_of_nat (16 * x + y)) (percent_decode rest')
            | _, _ => String a (percent_decode rest)
            end
        | _ => String a (percent_decode rest)
        end
      else String a (percent_decode rest)
  end.

Fixpoint split_on (sep : ascii) (s : string) : list string :=
  match s with
  | "" => [""]
  | String a s' =>
      if Ascii.eqb a sep then "" :: split_on sep s'
      else
        match split_on sep s' with
        | h :: t => String a h :: t
        | [] => [String a ""]
        end
  end.

(** The part before the first [sep] and the part after it (empty when
    there is none). *)
Fixpoint split_first (sep : ascii) (s : string) : string * string :=
  match s with
  | "" => ("", "")
  | String a s' =>
      if Ascii.eqb a sep then ("", s')
      else (String a (fst (split_first sep s')), snd (split_first sep s'))
  end.

Fixpoint plus_to_space (s : string) : string :=
  match s with
  | "" => ""
  | String a s' => String (if Ascii.eqb a "+" then " "%char else a) (plus_to_space s')
  end.

Definition parse (input : string) : t :=
  flat_map
    (fun sequence =>
       if sequence =? "" then []
       else
         [(percent_decode (plus_to_space (fst (split_first "=" sequence))),
           percent_decode (plus_to_space (snd (split_first "=" sequence))))])
    (split_on "&" input).

(** [new URLSearchParams(init)] for a string: a leading [?] is dropped. *)
Definition of_search (init : string) : t :=
  match init with
  | String "?" rest => parse rest
  | _ => parse init
  end.

End URLSearchParams.

(** The router: the [search] of the location a link leads to. *)

Module Router.

Fixpoint take_until (c : ascii) (s : string) : string :=
  match s with
  | "" => ""
  | String a s' => if Ascii.eqb a c then "" else String a (take_until c s')
  end.

Fixpoint drop_until (c : ascii) (s : string) : string :=
  match s with
  | "" => ""
  | String a s' => if Ascii.eqb a c then s else drop_until c s'
  end.

(** The hash is split off at the first [#], then the search starts at the
    first [?] of what is left. *)
Definition search_of (to : string) : string :=
  drop_until "?" (take_until "#" to).

End Router.

(** ** The search controller: [DocumentSearch] *)

Module DocumentSearch.

(** A document as the controller sees it: a record with an identifier. *)
Record DocumentSummary : Type := Doc { doc_id : nat }.

(** What [searchDocuments] resolves with. *)
Record Response : Type := mkResponse {
  data : list DocumentSummary;
  totalPages : Z
}.

(** The component's [useState] cells.  [filtersRef] is the identity of the
    filters object: React compares effect dependencies with [Object.is], and
    [updateFilters] builds a new object on every call. *)
Record State : Type := mkState {
  searchTerm : string;
  filters : JS.obj string;
  filtersRef : nat;
  documents : list DocumentSummary;
  loading : bool;
  page : Z;
  hasMore : bool
}.

(** What a [fetchDocuments] created by one render has captured
    ([useCallback] with dependencies [searchTerm, filters, page]). *)
Record Closure : Type := mkClosure {
  c_searchTerm : string;
  c_filters : JS.obj string;
  c_page : Z
}.

(** A call of [fetchDocuments] suspended at [await searchDocuments(...)]. *)
Record Pending : Type := mkPending {
  p_isNewSearch : bool;
  p_currentPage : Z;
  p_searchParams : JS.obj JS.value
}.

(** A call of [searchDocuments], as logged by the model. *)
Record Request : Type := mkRequest {
  r_id : nat;
  r_isNewSearch : bool;
  r_params : JS.obj JS.value
}.

(** A handler scheduled with [setTimeout] and not yet fired or cleared. *)
Record Timer : Type := mkTimer {
  t_id : nat;
  t_due : nat;
  t_closure : Closure
}.

(** The component together with its environment: the clock (ms), the timer
    queue, the identifier held by the debounce effect's clean-up, the calls
    awaiting a response, the log of calls, the address bar, the history
    entries pushed, and the console. *)
Record World : Type := mkWorld {
  st : State;
  clock : nat;
  timers : list Timer;
  nextTimer : nat;
  handler : nat;
  inflight : list (nat * Pending);
  requests : list Request;
  location : URLSearchParams.t;
  history : list URLSearchParams.t;
  console : list JS.thrown
}.

Definition DEBOUNCE_MS : nat := 500.
Definition LIMIT : Z := 12.

(** *** State setters *)

Definition setSearchTerm (x : string) (s : State) : State :=
  mkState x (filters s) (filtersRef s) (documents s) (loading s) (page s) (hasMore s).

Definition setFilters (f : JS.obj string -> JS.obj string) (s : State) : State :=
  mkState (searchTerm s) (f (filters s)) (S (filtersRef s)) (documents s)
          (loading s) (page s) (hasMore s).

Definition setDocuments (f : list DocumentSummary -> list DocumentSummary)
  (s : State) : State :=
  mkState (searchTerm s) (filters s) (filtersRef s) (f (documents s))
          (loading s) (page s) (hasMore s).

Definition setLoading (b : bool) (s : State) : State :=
  mkState (searchTerm s) (filters s) (filtersRef s) (documents s) b (page s) (hasMore s).

Definition setPage (f : Z -> Z) (s : State) : State :=
  mkState (searchTerm s) (filters s) (filtersRef s) (documents s)
          (loading s) (f (page s)) (hasMore s).

Definition setHasMore (b : bool) (s : State) : State :=
  mkState (searchTerm s) (filters s) (filtersRef s) (documents s) (loading s) (page s) b.

Definition with_st (f : State -> State) (w : World) : World :=
  mkWorld (f (st w)) (clock w) (timers w) (nextTimer w) (handler w) (inflight w)
          (requests w) (location w) (history w) (console w).

(** *** Timers *)

Definition setTimeout (c : Closure) (w : World) : World :=
  mkWorld (st w) (clock w)
          (timers w ++ [mkTimer (nextTimer w) (clock w + DEBOUNCE_MS) c])
          (S (nextTimer w)) (nextTimer w) (inflight w)
          (requests w) (location w) (history w) (console w).

Definition drop_timer (id : nat) (l : list Timer) : list Timer :=
  filter (fun tm => negb (t_id tm =? id)%nat) l.

Definition clearTimeout (id : nat) (w : World) : World :=
  mkWorld (st w) (clock w) (drop_timer id (timers w)) (nextTimer w) (handler w)
          (inflight w) (requests w) (location w) (history w) (console w).

(** *** [updateFilters] *)

Definition updateFilters (newFilters : JS.obj string) (s : State) : State :=
  setPage (fun _ => 1%Z)
          (setFilters (fun prevFilters => JS.spread2 prevFilters newFilters) s).

(** *** [fetchDocuments] *)

Definition closure_of (s : State) : Closure :=
  mkClosure (searchTerm s) (filters s) (page s).

(** [{ query: searchTerm, page: currentPage, limit: 12, ...filters }] *)
Definition searchParams (term : string) (fs : JS.obj string) (currentPage : Z)
  : JS.obj JS.value :=
  JS.assign
    [("query", JS.VStr term); ("page", JS.VNum currentPage);
     ("limit", JS.VNum LIMIT)]
    (map (fun kv => (fst kv, JS.VStr (snd kv))) fs).

(** The part of [fetchDocuments] that runs before the [await]: the loading
    flag is raised and [searchDocuments] is called. *)
Definition fetchDocuments (c : Closure) (isNewSearch : bool) (w : World) : World :=
  let currentPage := if isNewSearch then 1%Z else c_page c in
  let params := searchParams (c_searchTerm c) (c_filters c) currentPage in
  let id := length (requests w) in
  mkWorld (setLoading true (st w)) (clock w) (timers w) (nextTimer w) (handler w)
          (inflight w ++ [(id, mkPending isNewSearch currentPage params)])
          (requests w ++ [mkRequest id isNewSearch params])
          (location w) (history w) (console w).

(** [updateUrlWithSearchParams]: starting from the current address, every
    entry of [params] either sets or deletes its key; the result is pushed. *)
Definition rewrite_query (params : JS.obj JS.value) (u : URLSearchParams.t)
  : URLSearchParams.t :=
  fold_left
    (fun url kv =>
       if JS.truthy (snd kv)
       then URLSearchParams.set (fst kv) (JS.to_string (snd kv)) url
       else URLSearchParams.delete (fst kv) url)
    params u.

Definition updateUrlWithSearchParams (params : JS.obj JS.value) (w : World) : World :=
  let url := rewrite_query params (location w) in
  mkWorld (st w) (clock w) (timers w) (nextTimer w) (handler w) (inflight w)
          (requests w) url (history w ++ [url]) (console w).

(** The rest of the [try] block, run when [searchDocuments] resolves, and
    then the [finally] block. *)
Definition fetch_resolved (p : Pending) (response : Response) (w : World) : World :=
  let w1 :=
    with_st (setDocuments (fun prevDocs =>
                             if p_isNewSearch p then data response
                             else prevDocs ++ data response)) w in
  let w2 := with_st (setHasMore (p_currentPage p <? totalPages response)%Z) w1 in
  let w3 := updateUrlWithSearchParams (p_searchParams p) w2 in
  with_st (setLoading false) w3.

(** The [catch] block, run when [searchDocuments] rejects, and then the
    [finally] block. *)
Definition fetch_rejected (error : JS.thrown) (w : World) : World :=
  let w1 :=
    mkWorld (st w) (clock w) (timers w) (nextTimer w) (handler w) (inflight w)
            (requests w) (location w) (history w) (console w ++ [error]) in
  with_st (setLoading false) w1.

Fixpoint find_pending (id : nat) (l : list (nat * Pending)) : option Pending :=
  match l with
  | [] => None
  | (i, p) :: l' => if (i =? id)%nat then Some p else find_pending id l'
  end.

Definition settle (id : nat) (w : World) : World :=
  mkWorld (st w) (clock w) (timers w) (nextTimer w) (handler w)
          (filter (fun ip => negb (fst ip =? id)%nat) (inflight w))
          (requests w) (location w) (history w) (console w).

(** *** [handleLoadMore] *)

Definition handleLoadMore (w : World) : World :=
  if negb (loading (st w)) && hasMore (st w)
  then with_st (setPage (fun prevPage => (prevPage + 1)%Z)) w
  else w.

(** *** Effects *)

(** The commit that follows a render.  [prev] is the state of the previous
    render.  The page effect has dependencies [page]; the debounce effect
    has [searchTerm, filters, fetchDocuments], and [fetchDocuments] is a new
    function whenever [searchTerm], [filters] or [page] changed.  React runs
    the clean-ups of the effects to re-run first, then the effects in the
    order of their declaration. *)
Definition commit (prev : State) (w : World) : World :=
  let s := st w in
  let c := closure_of s in
  let term_changed := negb (searchTerm prev =? searchTerm s) in
  let filters_changed := negb (filtersRef prev =? filtersRef s)%nat in
  let page_changed := negb (page prev =? page s)%Z in
  let fetch_changed := term_changed || filters_changed || page_changed in
  let debounce_changed := term_changed || filters_changed || fetch_changed in
  let w1 := if debounce_changed then clearTimeout (handler w) w else w in
  let w2 := if page_changed then fetchDocuments c false w1 else w1 in
  if debounce_changed then setTimeout c w2 else w2.

(** *** Events *)

Inductive Event : Type :=
| ChangeTerm (term : string)
| ChangeFilters (newFilters : JS.obj string)
| LoadMore
| Elapse (dt : nat)
| Resolve (id : nat) (response : Response)
| Reject (id : nat) (error : JS.thrown).

(** A timer that fires leaves the queue and runs [fetchDocuments(true)] of
    the render that scheduled it. *)
Definition fire (tm : Timer) (w : World) : World :=
  fetchDocuments (t_closure tm) true (clearTimeout (t_id tm) w).

Definition is_due (t : nat) (tm : Timer) : bool := (t_due tm <=? t)%nat.

Definition set_clock (t : nat) (w : World) : World :=
  mkWorld (st w) t (timers w) (nextTimer w) (handler w) (inflight w)
          (requests w) (location w) (history w) (console w).

Definition elapse (dt : nat) (w : World) : World :=
  let t := (clock w + dt)%nat in
  set_clock t (fold_left (fun w' tm => fire tm w') (filter (is_due t) (timers w)) w).

Definition handle (ev : Event) (w : World) : World :=
  match ev with
  | ChangeTerm term => with_st (setSearchTerm term) w
  | ChangeFilters newFilters => with_st (updateFilters newFilters) w
  | LoadMore => handleLoadMore w
  | Elapse dt => elapse dt w
  | Resolve id response =>
      match find_pending id (inflight w) with
      | Some p => fetch_resolved p response (settle id w)
      | None => w
      end
  | Reject id error =>
      match find_pending id (inflight w) with
      | Some _ => fetch_rejected error (settle id w)
      | None => w
      end
  end.

(** One event, run to completion: the handler, then the commit of the
    render it caused. *)
Definition step (ev : Event) (w : World) : World :=
  commit (st w) (handle ev w).

Definition run (evs : list Event) (w : World) : World :=
  fold_left (fun w' ev => step ev w') evs w.

(** *** Mount *)

(** The initial state, seeded from the query string of the address. *)
Definition initial_state (url : URLSearchParams.t) : State :=
  mkState (JS.or_empty (URLSearchParams.get "query" url))
          [("category", JS.or_empty (URLSearchParams.get "category" url));
           ("university", JS.or_empty (URLSearchParams.get "university" url));
           ("fromDate", JS.or_empty (URLSearchParams.get "fromDate" url));
           ("toDate", JS.or_empty (URLSearchParams.get "toDate" url))]
          0 [] false 1%Z true.

(** The first commit runs both effects: [fetchDocuments(false)] at once,
    and the debounced [fetchDocuments(true)] on a timer. *)
Definition mount (url : URLSearchParams.t) (t0 : nat) : World :=
  let s := initial_state url in
  let c := closure_of s in
  setTimeout c (fetchDocuments c false (mkWorld s t0 [] 0 0 [] [] url [] [])).

(** *** Observations *)


(** The calls of [searchDocuments] made from world [w] to world [w']. *)
Definition issued (w w' : World) : list Request :=
  skipn (length (requests w)) (requests w').

(** What one entry of the parameters leaves in the query string under its
    key: its text when the value is truthy, nothing otherwise. *)
Definition mirrored (v : JS.value) : list string :=
  if JS.truthy v then [JS.to_string v] else [].

(** The reading of the specification under which the query string holds
    exactly the non-empty search parameters: a pair is in the query string
    if and only if it is a search parameter with a truthy value. *)
Definition holds_exactly (params : JS.obj JS.value) (u : URLSearchParams.t) : Prop :=
  forall (k s : string),
    In (k, s) u <->
    exists v, JS.get k params = Some v /\ JS.truthy v = true /\ s = JS.to_string v.

(** *** Bursts of changes *)







(** *** What a burst fetches before the debounce fires *)




(** An event that is no completion of a call. *)
Definition no_completion (ev : Event) : Prop :=
  match ev with
  | Resolve _ _ | Reject _ _ => False
  | _ => True
  end.

(** *** Invariant of the reachable worlds *)

(** Every suspended call carries parameters built by [searchParams] for the
    page it asked for, which is 1 for a new search, and every timer in the
    queue is the one whose identifier the debounce effect's clean-up holds. *)
Definition wf_world (w : World) : Prop :=
  (forall id p, In (id, p) (inflight w) ->
     (exists term fs, p_searchParams p = searchParams term fs (p_currentPage p))
     /\ (p_isNewSearch p = true -> p_currentPage p = 1%Z))
  /\ (forall tm, In tm (timers w) -> t_id tm = handler w).

(** The debounce effect has just run: its timer is the only one in the
    queue, it is due one delay from now, and it holds the [fetchDocuments]
    of the current render. *)
Definition armed (w : World) : Prop :=
  timers w = [mkTimer (handler w) (clock w + DEBOUNCE_MS) (closure_of (st w))].

(** *** Further invariants *)

(** The keys of the filters object the component starts with. *)
Definition FILTER_KEYS : list string :=
  ["category"; "university"; "fromDate"; "toDate"].

Definition filters_ok (fs : JS.obj string) : Prop :=
  JS.well_formed fs /\ forall k, In k FILTER_KEYS -> In k (JS.keys fs).

(** At most one timer is pending, and it holds the [fetchDocuments] of the
    current render. *)
Definition timer_current (w : World) : Prop :=
  length (timers w) <= 1
  /\ forall tm, In tm (timers w) -> t_closure tm = closure_of (st w).

(** A logged call whose parameters were built by [searchParams] from
    well-formed filters that still have the four initial keys, for a page
    that is at least 1, and exactly 1 for a new search. *)
Definition good_request (r : Request) : Prop :=
  exists term fs cp,
    r_params r = searchParams term fs cp
    /\ filters_ok fs
    /\ (1 <= cp)%Z
    /\ (r_isNewSearch r = true -> cp = 1%Z).

(** *** The view *)

(** The load-more button: its [disabled] attribute and its label. *)
Record Button : Type := mkButton {
  disabled : bool;
  label : string
}.

(** The results pane: the no-results message, or the grid of cards with
    the load-more button when there is one. *)
Inductive Results : Type :=
| NoResults
| Grid (cards : list DocumentSummary) (loadMore : option Button).

Record View : Type := mkView {
  searchBarValue : string;
  filterPanel : JS.obj string;
  results : Results;
  loadingIndicator : bool
}.

(** The JSX the component returns. *)
Definition render (s : State) : View :=
  mkView (searchTerm s) (filters s)
    (if (length (documents s) =? 0)%nat && negb (loading s) then NoResults
     else Grid (documents s)
            (if hasMore s
             then Some (mkButton (loading s)
                          (if loading s then "Cargando..."
                           else "Cargar más resultados"))
             else None))
    (loading s).

End DocumentSearch.

(** ** The landing page: [HomePage] *)

Module HomePage.

Record Summary : Type := Item { item_id : nat }.

(** What [fetchRecentDocuments] and [fetchRecentBlogPosts] may resolve
    with: an array, or null or undefined in its place. *)
Inductive payload : Type :=
| Null
| Undefined
| Array (items : list Summary).

(** [data || []] *)
Definition or_empty_array (p : payload) : list Summary :=
  match p with
  | Array items => items
  | Null | Undefined => []
  end.

Record State : Type := mkState {
  recentDocuments : list Summary;
  recentPosts : list Summary;
  isLoading : bool;
  error : option string
}.

Inductive Setter : Type :=
| SetRecentDocuments (l : list Summary)
| SetRecentPosts (l : list Summary)
| SetIsLoading (b : bool)
| SetError (e : string).

Definition apply_setter (c : Setter) (s : State) : State :=
  match c with
  | SetRecentDocuments l => mkState l (recentPosts s) (isLoading s) (error s)
  | SetRecentPosts l => mkState (recentDocuments s) l (isLoading s) (error s)
  | SetIsLoading b => mkState (recentDocuments s) (recentPosts s) b (error s)
  | SetError e => mkState (recentDocuments s) (recentPosts s) (isLoading s) (Some e)
  end.

Inductive Promise : Type :=
| Waiting
| Fulfilled (p : payload)
| Rejected (e : JS.thrown).

(** The component and its effect: the state cells, the [mounted] variable
    of the effect, the two fetches, whether [Promise.all] has settled, and
    the log of setter calls, each with the value [mounted] had (that is,
    whether the component was still on screen) when it was made. *)
Record World : Type := mkWorld {
  hst : State;
  mounted : bool;
  documentsData : Promise;
  postsData : Promise;
  settled : bool;
  calls : list (Setter * bool)
}.

(** A setter call: React applies it to a mounted component and drops it
    otherwise; the log keeps it either way. *)
Definition call (c : Setter) (w : World) : World :=
  mkWorld (if mounted w then apply_setter c (hst w) else hst w)
          (mounted w) (documentsData w) (postsData w) (settled w)
          (calls w ++ [(c, mounted w)]).

(** [finally { if (mounted) setIsLoading(false); }] *)
Definition finally (w : World) : World :=
  if mounted w then call (SetIsLoading false) w else w.

(** The [try] block after the [await], then [finally]. *)
Definition all_fulfilled (documents posts : payload) (w : World) : World :=
  if negb (mounted w) then finally w
  else finally (call (SetRecentPosts (or_empty_array posts))
                  (call (SetRecentDocuments (or_empty_array documents)) w)).

(** The [catch] block, then [finally]. *)
Definition all_rejected (err : JS.thrown) (w : World) : World :=
  finally (call (SetError (JS.message_or_string err)) w).

Inductive Event : Type :=
| DocumentsResolve (p : payload)
| DocumentsReject (e : JS.thrown)
| PostsResolve (p : payload)
| PostsReject (e : JS.thrown)
| Unmount.

Definition set_promises (d p : Promise) (w : World) : World :=
  mkWorld (hst w) (mounted w) d p (settled w) (calls w).

Definition set_settled (w : World) : World :=
  mkWorld (hst w) (mounted w) (documentsData w) (postsData w) true (calls w).

(** [Promise.all]: it rejects with the first rejection and fulfils once
    both promises have; it settles once. *)
Definition promise_all (w : World) : World :=
  if settled w then w
  else
    match documentsData w, postsData w with
    | Rejected e, _ => all_rejected e (set_settled w)
    | _, Rejected e => all_rejected e (set_settled w)
    | Fulfilled d, Fulfilled p => all_fulfilled d p (set_settled w)
    | _, _ => w
    end.

Definition is_waiting (p : Promise) : bool :=
  match p with
  | Waiting => true
  | _ => false
  end.

(** A promise settles once: a later completion of the same fetch is
    ignored. *)
Definition step (ev : Event) (w : World) : World :=
  match ev with
  | DocumentsResolve p =>
      if is_waiting (documentsData w)
      then promise_all (set_promises (Fulfilled p) (postsData w) w) else w
  | DocumentsReject e =>
      if is_waiting (documentsData w)
      then promise_all (set_promises (Rejected e) (postsData w) w) else w
  | PostsResolve p =>
      if is_waiting (postsData w)
      then promise_all (set_promises (documentsData w) (Fulfilled p) w) else w
  | PostsReject e =>
      if is_waiting (postsData w)
      then promise_all (set_promises (documentsData w) (Rejected e) w) else w
  | Unmount =>
      mkWorld (hst w) false (documentsData w) (postsData w) (settled w) (calls w)
  end.

Definition run (evs : list Event) (w : World) : World :=
  fold_left (fun w' ev => step ev w') evs w.

(** The first commit: the effect sets [mounted], and [loadInitialData]
    runs up to its [await]. *)
Definition mount : World :=
  call (SetIsLoading true)
       (mkWorld (mkState [] [] true None) true Waiting Waiting false []).

(** The three views of the component. *)
Inductive View : Type :=
| LoadingSpinner
| ErrorMessage (text : string)
| Page (documents posts : list Summary).

(** [if (isLoading) ...; if (error) ...; return <page>] *)
Definition render (s : State) : View :=
  if isLoading s then LoadingSpinner
  else
    match error s with
    | Some e =>
        if negb (e =? "") then ErrorMessage ("Error: " ++ e)%string
        else Page (recentDocuments s) (recentPosts s)
    | None => Page (recentDocuments s) (recentPosts s)
    end.

Definition after_unmount (l : list (Setter * bool)) : list Setter :=
  map fst (filter (fun cb => negb (snd cb)) l).

(** The shapes of the events up to the first rejection: one fetch rejects
    with [e], the other may have resolved before. *)
Inductive first_rejection (e : JS.thrown) : list Event -> Prop :=
| documents_reject : first_rejection e [DocumentsReject e]
| documents_reject_after_posts (p : payload) :
    first_rejection e [PostsResolve p; DocumentsReject e]
| posts_reject : first_rejection e [PostsReject e]
| posts_reject_after_documents (d : payload) :
    first_rejection e [DocumentsResolve d; PostsReject e].

Definition is_set_error (c : Setter) : Prop :=
  match c with
  | SetError _ => True
  | _ => False
  end.

(** Whether the two fetches have come to a decision: one has rejected, or
    both have resolved. *)
Definition decided (d p : Promise) : bool :=
  match d, p with
  | Rejected _, _ => true
  | _, Rejected _ => true
  | Fulfilled _, Fulfilled _ => true
  | _, _ => false
  end.

(** What holds of the component in every world: [Promise.all] has settled
    exactly when the fetches are decided; until then the state is the
    initial one; a component still mounted when it settles has its loading
    flag cleared; and the state is the initial one, or an error with both
    lists empty, or two lists without error. *)
Definition state_invariant (w : World) : Prop :=
  settled w = decided (documentsData w) (postsData w)
  /\ (settled w = false -> hst w = mkState [] [] true None)
  /\ (mounted w = true -> settled w = true -> isLoading (hst w) = false)
  /\ (hst w = mkState [] [] true None
      \/ (exists e, hst w = mkState [] [] false (Some (JS.message_or_string e)))
      \/ (exists d p,
            hst w = mkState (or_empty_array d) (or_empty_array p) false None)).

(** The category links of the page. *)
Definition categories : list string :=
  ["Ciencias"; "Humanidades"; "Ingeniería"; "Medicina"; "Derecho"; "Economía"].

Definition category_link (category : string) : string :=
  ("/documents?category=" ++ JS.encodeURIComponent category)%string.

End HomePage.

(** ** Facts about objects and query strings *)

Section ObjectFacts.

Context {V : Type}.

Lemma get_set_same (k : string) (v : V) (o : JS.obj V) :
  JS.get k (JS.set k v o) = Some v.
Proof.
  induction o as [|[k' v'] o IH]; simpl.
  - now rewrite String.eqb_refl.
  - destruct (String.eqb_spec k' k) as [->|Hne]; simpl.
    + now rewrite String.eqb_refl.
    + apply String.eqb_neq in Hne. now rewrite Hne.
Qed.

Lemma get_set_other (k k' : string) (v : V) (o : JS.obj V) :
  k' <> k -> JS.get k (JS.set k' v o) = JS.get k o.
Proof.
  intros Hne. induction o as [|[k0 v0] o IH]; simpl.
  - apply String.eqb_neq in Hne. now rewrite Hne.
  - destruct (String.eqb_spec k0 k') as [->|Hne0]; simpl.
    + apply String.eqb_neq in Hne. now rewrite Hne.
    + now rewrite IH.
Qed.

Lemma keys_set_in (k : string) (v : V) (o : JS.obj V) (x : string) :
  In x (JS.keys (JS.set k v o)) <-> x = k \/ In x (JS.keys o).
Proof.
  induction o as [|[k0 v0] o IH]; simpl.
  - intuition.
  - destruct (String.eqb_spec k0 k) as [->|Hne]; simpl.
    + intuition.
    + rewrite IH. intuition.
Qed.

Lemma set_well_formed (k : string) (v : V) (o : JS.obj V) :
  JS.well_formed o -> JS.well_formed (JS.set k v o).
Proof.
  unfold JS.well_formed.
  induction o as [|[k0 v0] o IH]; simpl; intros Hnd.
  - constructor; [intros [] | constructor].
  - inversion Hnd as [|? ? Hnotin Hnd']; subst.
    destruct (String.eqb_spec k0 k) as [->|Hne]; simpl.
    + constructor; assumption.
    + constructor; [|now apply IH].
      intros Hin. apply keys_set_in in Hin. destruct Hin as [->|Hin]; auto.
Qed.

Lemma assign_well_formed (a b : JS.obj V) :
  JS.well_formed a -> JS.well_formed (JS.assign a b).
Proof.
  unfold JS.assign. revert a.
  induction b as [|[k v] b IH]; simpl; intros a Ha; [assumption|].
  apply IH. now apply set_well_formed.
Qed.

Lemma get_not_key (k : string) (o : JS.obj V) :
  ~ In k (JS.keys o) -> JS.get k o = None.
Proof.
  induction o as [|[k0 v0] o IH]; simpl; intros Hn; [reflexivity|].
  destruct (String.eqb_spec k0 k) as [->|Hne]; [tauto|].
  apply IH. tauto.
Qed.

(** Assigning a well-formed source: its properties win, the others stay. *)
Lemma get_assign (k : string) (a b : JS.obj V) :
  JS.well_formed b ->
  JS.get k (JS.assign a b) =
    match JS.get k b with
    | Some v => Some v
    | None => JS.get k a
    end.
Proof.
  unfold JS.assign, JS.well_formed. revert a.
  induction b as [|[k0 v0] b IH]; simpl; intros a Hnd; [reflexivity|].
  inversion Hnd as [|? ? Hnotin Hnd']; subst.
  rewrite IH by assumption.
  destruct (String.eqb_spec k0 k) as [->|Hne].
  - rewrite (get_not_key k b Hnotin). apply get_set_same.
  - destruct (JS.get k b); [reflexivity|]. now apply get_set_other.
Qed.

Lemma assign_nil_id (a : JS.obj V) :
  JS.well_formed a -> JS.assign [] a = a.
Proof.
  unfold JS.assign, JS.well_formed.
  assert (H : forall (b pre : JS.obj V),
             NoDup (JS.keys (pre ++ b)) ->
             fold_left (fun o kv => JS.set (fst kv) (snd kv) o) b pre = pre ++ b).
  { induction b as [|[k v] b IH]; simpl; intros pre Hnd.
    - now rewrite app_nil_r.
    - assert (Hset : JS.set k v pre = pre ++ [(k, v)]).
      { clear IH. induction pre as [|[k0 v0] pre IHp]; simpl in *; [reflexivity|].
        inversion Hnd as [|? ? Hnotin Hnd']; subst.
        destruct (String.eqb_spec k0 k) as [->|Hne].
        - exfalso. apply Hnotin. unfold JS.keys. rewrite map_app.
          apply in_or_app. right. now left.
        - now rewrite IHp. }
      rewrite Hset. rewrite IH; rewrite <- app_assoc; simpl; auto. }
  intros Hnd. apply (H a []). assumption.
Qed.

End ObjectFacts.

Section QueryStringFacts.

Import URLSearchParams.

Lemma getAll_delete_same (k : string) (u : t) : getAll k (delete k u) = [].
Proof.
  induction u as [|[k0 v0] u IH]; simpl; [reflexivity|].
  destruct (String.eqb_spec k0 k) as [->|Hne]; simpl; [assumption|].
  apply String.eqb_neq in Hne. now rewrite Hne.
Qed.

Lemma getAll_delete_other (k k' : string) (u : t) :
  k' <> k -> getAll k (delete k' u) = getAll k u.
Proof.
  intros Hne. induction u as [|[k0 v0] u IH]; simpl; [reflexivity|].
  destruct (String.eqb_spec k0 k') as [->|Hne0]; simpl.
  - apply String.eqb_neq in Hne. now rewrite Hne.
  - destruct (k0 =? k); now rewrite IH.
Qed.

Lemma getAll_set_same (k v : string) (u : t) : getAll k (set k v u) = [v].
Proof.
  induction u as [|[k0 v0] u IH]; simpl.
  - now rewrite String.eqb_refl.
  - destruct (String.eqb_spec k0 k) as [->|Hne]; simpl.
    + now rewrite String.eqb_refl, getAll_delete_same.
    + apply String.eqb_neq in Hne. now rewrite Hne.
Qed.

Lemma getAll_set_other (k k' v : string) (u : t) :
  k' <> k -> getAll k (set k' v u) = getAll k u.
Proof.
  intros Hne. induction u as [|[k0 v0] u IH]; simpl.
  - apply String.eqb_neq in Hne. now rewrite Hne.
  - destruct (String.eqb_spec k0 k') as [->|Hne0]; simpl.
    + apply String.eqb_neq in Hne. rewrite Hne.
      now apply getAll_delete_other, String.eqb_neq.
    + destruct (k0 =? k); now rewrite IH.
Qed.

Lemma in_getAll (k v : string) (u : t) : In v (getAll k u) <-> In (k, v) u.
Proof.
  induction u as [|[k0 v0] u IH]; simpl; [tauto|].
  destruct (String.eqb_spec k0 k) as [->|Hne]; simpl.
  - rewrite IH. split; intros [H|H]; auto; left; congruence.
  - rewrite IH. split; auto. intros [H|H]; auto. congruence.
Qed.

End QueryStringFacts.

Section SearchParamsFacts.

Import DocumentSearch.

Lemma getAll_rewrite_query (params : JS.obj JS.value) :
  JS.well_formed params ->
  forall (k : string) (u : URLSearchParams.t),
    URLSearchParams.getAll k (rewrite_query params u) =
      match JS.get k params with
      | Some v => mirrored v
      | None => URLSearchParams.getAll k u
      end.
Proof.
  unfold rewrite_query, JS.well_formed, mirrored.
  induction params as [|[k0 v0] ps IH]; simpl; intros Hnd k u; [reflexivity|].
  inversion Hnd as [|? ? Hnotin Hnd']; subst.
  rewrite IH by assumption.
  destruct (String.eqb_spec k0 k) as [->|Hne].
  - rewrite (get_not_key k ps Hnotin).
    destruct (JS.truthy v0).
    + apply getAll_set_same.
    + apply getAll_delete_same.
  - destruct (JS.get k ps); [reflexivity|].
    destruct (JS.truthy v0).
    + now apply getAll_set_other.
    + now apply getAll_delete_other.
Qed.

Lemma searchParams_well_formed (term : string) (fs : JS.obj string) (cp : Z) :
  JS.well_formed (searchParams term fs cp).
Proof.
  unfold searchParams. apply assign_well_formed.
  unfold JS.well_formed. simpl.
  repeat constructor; simpl; intuition discriminate.
Qed.

End SearchParamsFacts.

(** ** The search controller: frame and commit lemmas *)

Section ControllerFacts.

Import DocumentSearch.

(** A commit whose render saw no dependency change re-runs no effect. *)
Lemma commit_same_deps (prev : State) (w : World) :
  searchTerm prev = searchTerm (st w) ->
  filtersRef prev = filtersRef (st w) ->
  page prev = page (st w) ->
  commit prev w = w.
Proof.
  intros Ht Hf Hp. unfold commit.
  rewrite Ht, Hf, Hp, String.eqb_refl, Nat.eqb_refl, Z.eqb_refl.
  reflexivity.
Qed.

(** Effects touch no other state cell than [loading], and neither the
    address bar nor the console nor the clock. *)
Lemma commit_frame (prev : State) (w : World) :
  let w' := commit prev w in
  searchTerm (st w') = searchTerm (st w)
  /\ filters (st w') = filters (st w)
  /\ filtersRef (st w') = filtersRef (st w)
  /\ documents (st w') = documents (st w)
  /\ page (st w') = page (st w)
  /\ hasMore (st w') = hasMore (st w)
  /\ location w' = location w
  /\ history w' = history w
  /\ console w' = console w
  /\ clock w' = clock w.
Proof.
  unfold commit.
  destruct (negb (searchTerm prev =? searchTerm (st w)));
    destruct (negb (filtersRef prev =? filtersRef (st w))%nat);
    destruct (negb (page prev =? page (st w))%Z);
    simpl; repeat split; reflexivity.
Qed.

Lemma step_resolve (w : World) (id : nat) (p : Pending) (r : Response) :
  find_pending id (inflight w) = Some p ->
  step (Resolve id r) w = fetch_resolved p r (settle id w).
Proof.
  intros Hp. unfold step. simpl. rewrite Hp.
  apply commit_same_deps; reflexivity.
Qed.

Lemma step_reject (w : World) (id : nat) (p : Pending) (e : JS.thrown) :
  find_pending id (inflight w) = Some p ->
  step (Reject id e) w = fetch_rejected e (settle id w).
Proof.
  intros Hp. unfold step. simpl. rewrite Hp.
  apply commit_same_deps; reflexivity.
Qed.

Lemma step_load_more_blocked (w : World) :
  loading (st w) = true \/ hasMore (st w) = false ->
  step LoadMore w = w.
Proof.
  intros H. unfold step. simpl. unfold handleLoadMore.
  assert (Hg : negb (loading (st w)) && hasMore (st w) = false).
  { destruct H as [-> | ->]; [reflexivity | apply andb_false_r]. }
  rewrite Hg. apply commit_same_deps; reflexivity.
Qed.

Lemma run_cons (ev : Event) (evs : list Event) (w : World) :
  run (ev :: evs) w = run evs (step ev w).
Proof. reflexivity. Qed.

Lemma run_app (evs1 evs2 : list Event) (w : World) :
  run (evs1 ++ evs2) w = run evs2 (run evs1 w).
Proof. unfold run. apply fold_left_app. Qed.

Lemma issued_app (w w' : World) (l : list Request) :
  requests w' = requests w ++ l -> issued w w' = l.
Proof.
  intros H. unfold issued. rewrite H.
  rewrite skipn_app, skipn_all, Nat.sub_diag. reflexivity.
Qed.

Lemma issued_same (w : World) : issued w w = [].
Proof. apply issued_app. now rewrite app_nil_r. Qed.

Lemma find_pending_in (id : nat) (l : list (nat * Pending)) (p : Pending) :
  find_pending id l = Some p -> In (id, p) l.
Proof.
  induction l as [|[i q] l IH]; simpl; [discriminate|].
  destruct (Nat.eqb_spec i id) as [->|Hne].
  - intros [= ->]. now left.
  - intros H. right. now apply IH.
Qed.

End ControllerFacts.

(** ** The invariant of the reachable worlds *)

Section Invariant.

Import DocumentSearch.

Lemma drop_timer_all (h : nat) (l : list Timer) :
  (forall tm, In tm l -> t_id tm = h) -> drop_timer h l = [].
Proof.
  induction l as [|tm l IH]; simpl; intros H; [reflexivity|].
  rewrite (H tm (or_introl eq_refl)), Nat.eqb_refl. simpl.
  apply IH. intros tm' Hin. apply H. now right.
Qed.

Lemma in_drop_timer (id : nat) (l : list Timer) (tm : Timer) :
  In tm (drop_timer id l) -> In tm l.
Proof. unfold drop_timer. intros H. now apply filter_In in H. Qed.

Lemma wf_with_st (f : State -> State) (w : World) :
  wf_world w -> wf_world (with_st f w).
Proof. intros [H1 H2]. split; assumption. Qed.

Lemma wf_set_clock (t : nat) (w : World) :
  wf_world w -> wf_world (set_clock t w).
Proof. intros [H1 H2]. split; assumption. Qed.

Lemma wf_fetchDocuments (c : Closure) (b : bool) (w : World) :
  wf_world w -> wf_world (fetchDocuments c b w).
Proof.
  intros [H1 H2]. split; simpl; [|assumption].
  intros id p Hin. apply in_app_or in Hin. destruct Hin as [Hin|[Heq|[]]].
  - eauto.
  - inversion Heq; subst. simpl. split; [eauto|].
    intros ->. reflexivity.
Qed.

Lemma wf_clearTimeout (id : nat) (w : World) :
  wf_world w -> wf_world (clearTimeout id w).
Proof.
  intros [H1 H2]. split; simpl; [assumption|].
  intros tm Hin. apply H2. eapply in_drop_timer; eauto.
Qed.

Lemma wf_settle (id : nat) (w : World) :
  wf_world w -> wf_world (settle id w).
Proof.
  intros [H1 H2]. split; simpl; [|assumption].
  intros i p Hin. apply filter_In in Hin. destruct Hin as [Hin _]. eauto.
Qed.

Lemma wf_fetch_resolved (p : Pending) (r : Response) (w : World) :
  wf_world w -> wf_world (fetch_resolved p r w).
Proof. intros [H1 H2]. split; assumption. Qed.

Lemma wf_fetch_rejected (e : JS.thrown) (w : World) :
  wf_world w -> wf_world (fetch_rejected e w).
Proof. intros [H1 H2]. split; assumption. Qed.

Lemma wf_fire_all (l : list Timer) (w : World) :
  wf_world w -> wf_world (fold_left (fun w' tm => fire tm w') l w).
Proof.
  revert w. induction l as [|tm l IH]; simpl; intros w Hw; [assumption|].
  apply IH. unfold fire. now apply wf_fetchDocuments, wf_clearTimeout.
Qed.

Lemma wf_handle (ev : Event) (w : World) :
  wf_world w -> wf_world (handle ev w).
Proof.
  intros Hw. destruct ev; simpl.
  - now apply wf_with_st.
  - now apply wf_with_st.
  - unfold handleLoadMore.
    destruct (negb (loading (st w)) && hasMore (st w)); [now apply wf_with_st | assumption].
  - unfold elapse. now apply wf_set_clock, wf_fire_all.
  - destruct (find_pending id (inflight w)); [|assumption].
    now apply wf_fetch_resolved, wf_settle.
  - destruct (find_pending id (inflight w)); [|assumption].
    now apply wf_fetch_rejected, wf_settle.
Qed.

(** The clean-up clears the one timer there may be before a new one is
    scheduled. *)
Lemma wf_commit (prev : State) (w : World) :
  wf_world w -> wf_world (commit prev w).
Proof.
  intros Hw. unfold commit.
  set (deb := negb (searchTerm prev =? searchTerm (st w))
              || negb (filtersRef prev =? filtersRef (st w))%nat
              || (negb (searchTerm prev =? searchTerm (st w))
                  || negb (filtersRef prev =? filtersRef (st w))%nat
                  || negb (page prev =? page (st w))%Z)).
  destruct deb.
  - assert (Hc : timers (clearTimeout (handler w) w) = []).
    { simpl. apply drop_timer_all. apply Hw. }
    assert (Hw1 : wf_world (clearTimeout (handler w) w)) by now apply wf_clearTimeout.
    set (w1 := clearTimeout (handler w) w) in *.
    set (w2 := if negb (page prev =? page (st w))%Z
               then fetchDocuments (closure_of (st w)) false w1 else w1).
    assert (Hw2 : wf_world w2 /\ timers w2 = []).
    { subst w2. destruct (negb (page prev =? page (st w))%Z); split; auto.
      now apply wf_fetchDocuments. }
    destruct Hw2 as [[H1 H2] Ht]. split; simpl; [assumption|].
    rewrite Ht. simpl. intros tm [<-|[]]. reflexivity.
  - destruct (negb (page prev =? page (st w))%Z); [now apply wf_fetchDocuments | assumption].
Qed.

Lemma wf_step (ev : Event) (w : World) : wf_world w -> wf_world (step ev w).
Proof. intros Hw. unfold step. now apply wf_commit, wf_handle. Qed.

Lemma wf_mount (url : URLSearchParams.t) (t0 : nat) : wf_world (mount url t0).
Proof.
  unfold mount. split; simpl.
  - intros id p [Heq|[]]. inversion Heq; subst. simpl.
    split; [eauto | discriminate].
  - intros tm [<-|[]]. reflexivity.
Qed.

Lemma wf_run (evs : list Event) (w : World) : wf_world w -> wf_world (run evs w).
Proof.
  unfold run. revert w. induction evs as [|ev evs IH]; simpl; intros w Hw; [assumption|].
  apply IH. now apply wf_step.
Qed.

Lemma wf_reachable (url : URLSearchParams.t) (t0 : nat) (evs : list Event) :
  wf_world (run evs (mount url t0)).
Proof. apply wf_run, wf_mount. Qed.

End Invariant.

(** ** Properties of the search controller *)

Section ControllerProperties.

Import DocumentSearch.

(** C3. With [loading] set or [hasMore] cleared, [handleLoadMore] does
    nothing: the event leaves the whole world as it was (term, filters,
    page, results, loading flag, has-more flag, timers, address bar), and no
    call of [searchDocuments] is made. *)
Theorem C3_load_more_blocked_is_noop (w : World) :
  loading (st w) = true \/ hasMore (st w) = false ->
  step LoadMore w = w /\ issued w (step LoadMore w) = [].
Proof.
  intros H. rewrite (step_load_more_blocked w H).
  split; [reflexivity | apply issued_same].
Qed.

Lemma C3_witness_loading :
  loading (st (mount [] 0)) = true
  /\ step LoadMore (mount [] 0) = mount [] 0
  /\ issued (mount [] 0) (step LoadMore (mount [] 0)) = [].
Proof.
  split; [reflexivity|].
  apply (C3_load_more_blocked_is_noop (mount [] 0)). left. reflexivity.
Defined.

(** C5. A failed fetch logs the error and clears the loading flag; the
    results, the has-more flag, the page, the term and the filters stay as
    they were, the address bar and the history are not touched, no call of
    [searchDocuments] is made again and no timer is scheduled. *)
Theorem C5_failed_fetch_only_clears_loading
  (w : World) (id : nat) (p : Pending) (e : JS.thrown) :
  find_pending id (inflight w) = Some p ->
  let w' := step (Reject id e) w in
  console w' = console w ++ [e]
  /\ loading (st w') = false
  /\ documents (st w') = documents (st w)
  /\ hasMore (st w') = hasMore (st w)
  /\ page (st w') = page (st w)
  /\ searchTerm (st w') = searchTerm (st w)
  /\ filters (st w') = filters (st w)
  /\ location w' = location w
  /\ history w' = history w
  /\ requests w' = requests w
  /\ timers w' = timers w.
Proof.
  intros Hp w'. subst w'. rewrite (step_reject w id p e Hp).
  simpl. repeat split; reflexivity.
Qed.

Lemma C5_witness :
  let w := mount [] 0 in
  let w' := step (Reject 0 (JS.ErrorObject "Error" "Network Error")) w in
  console w' = [JS.ErrorObject "Error" "Network Error"]
  /\ loading (st w') = false
  /\ documents (st w') = [].
Proof.
  intros w w'.
  destruct (C5_failed_fetch_only_clears_loading w 0
              (mkPending false 1 (searchParams "" (filters (st w)) 1))
              (JS.ErrorObject "Error" "Network Error") eq_refl)
    as (Hc & Hl & Hd & _).
  repeat split; assumption.
Defined.

(** Issuing a fetch and seeing it fail at once brings every state cell back
    to its value before the fetch, the loading flag apart. *)
Lemma fetch_then_fail (w : World) (c : Closure) (isNewSearch : bool) (e : JS.thrown) :
  let w' := step (Reject (length (requests w)) e) (fetchDocuments c isNewSearch w) in
  st w' = setLoading false (st w)
  /\ location w' = location w
  /\ length (requests w') = S (length (requests w)).
Proof.
  unfold step. simpl.
  destruct (find_pending (length (requests w))
              (inflight w ++ [(length (requests w),
                  mkPending isNewSearch (if isNewSearch then 1%Z else c_page c)
                    (searchParams (c_searchTerm c) (c_filters c)
                       (if isNewSearch then 1%Z else c_page c)))])) eqn:Hf.
  - rewrite commit_same_deps by reflexivity. simpl.
    repeat split. rewrite length_app. simpl. lia.
  - exfalso. revert Hf. generalize (inflight w) as l.
    induction l as [|[i q] l IH]; simpl.
    + now rewrite Nat.eqb_refl.
    + destruct (i =? length (requests w))%nat; [discriminate | assumption].
Qed.

(** C9. [updateFilters] merges: every key of the update takes the update's
    value, every other key keeps the value it had, and the page goes back
    to 1. *)
Theorem C9_update_filters_merges_and_resets_page
  (w : World) (newFilters : JS.obj string) :
  JS.well_formed (filters (st w)) ->
  JS.well_formed newFilters ->
  let w' := step (ChangeFilters newFilters) w in
  (forall k,
     JS.get k (filters (st w')) =
       match JS.get k newFilters with
       | Some v => Some v
       | None => JS.get k (filters (st w))
       end)
  /\ page (st w') = 1%Z.
Proof.
  intros HF HP w'. subst w'. unfold step.
  destruct (commit_frame (st w) (handle (ChangeFilters newFilters) w))
    as (_ & Hf & _ & _ & Hpg & _).
  rewrite Hf, Hpg. simpl. split; [|reflexivity].
  intros k. unfold JS.spread2.
  rewrite (assign_nil_id _ HF). now apply get_assign.
Qed.

Lemma C9_witness :
  let w := mount [("category", "Ciencias")] 0 in
  let w' := step (ChangeFilters [("university", "UNAM")]) w in
  JS.get "category" (filters (st w')) = Some "Ciencias"
  /\ JS.get "university" (filters (st w')) = Some "UNAM"
  /\ page (st w') = 1%Z.
Proof.
  intros w w'.
  assert (HF : JS.well_formed (filters (st w))).
  { unfold JS.well_formed. simpl. repeat constructor; simpl; intuition discriminate. }
  assert (HP : JS.well_formed [("university", "UNAM")]).
  { unfold JS.well_formed. simpl. repeat constructor; simpl; intuition. }
  destruct (C9_update_filters_merges_and_resets_page w [("university", "UNAM")] HF HP)
    as [Hget Hpage].
  subst w'. split; [|split].
  - rewrite (Hget "category"). reflexivity.
  - rewrite (Hget "university"). reflexivity.
  - exact Hpage.
Defined.

(** C6 as the specification words it fails when the address carries a key
    that is no search parameter: [updateUrlWithSearchParams] starts from the
    current address and only sets or deletes the keys of the parameters, so
    [ref=x] is still there after the fetch. *)
Lemma C6_counterexample_foreign_key :
  let w := mount [("ref", "x"); ("category", "Ciencias")] 0 in
  let p := mkPending false 1
             (searchParams ""
                [("category", "Ciencias"); ("university", "");
                 ("fromDate", ""); ("toDate", "")] 1) in
  find_pending 0 (inflight w) = Some p
  /\ ~ holds_exactly (p_searchParams p)
         (location (step (Resolve 0 (mkResponse [] 1)) w)).
Proof.
  intros w p. split; [reflexivity|].
  intros H. destruct (proj1 (H "ref" "x")) as (v & Hv & _).
  - vm_compute. left. reflexivity.
  - vm_compute in Hv. discriminate.
Qed.

(** C6, amended.  After a successful fetch the query string of the address
    is rewritten key by key: a key of the search parameters with a truthy
    value is left with exactly one pair, holding the value's text; a key of
    the search parameters with an empty value is left with no pair; any
    other key of the previous address keeps its pairs.  The new address is
    pushed on the history.  With filters [{category:'Ciencias',
    university:''}] the result holds [category=Ciencias] and no
    [university]. *)
Theorem C6_query_string_mirrors_parameters :
  forall (url : URLSearchParams.t) (t0 : nat) (evs : list Event)
         (id : nat) (p : Pending) (response : Response),
    let w := run evs (mount url t0) in
    find_pending id (inflight w) = Some p ->
    let w' := step (Resolve id response) w in
    (forall k,
       URLSearchParams.getAll k (location w') =
         match JS.get k (p_searchParams p) with
         | Some v => mirrored v
         | None => URLSearchParams.getAll k (location w)
         end)
    /\ history w' = history w ++ [location w']
    /\ (forall term cp u,
          let u' := rewrite_query
                      (searchParams term
                         [("category", "Ciencias"); ("university", "")] cp) u in
          In ("category", "Ciencias") u'
          /\ URLSearchParams.getAll "category" u' = ["Ciencias"]
          /\ URLSearchParams.getAll "university" u' = []).
Proof.
  intros url t0 evs id p response w Hp w'.
  assert (Hwf : JS.well_formed (p_searchParams p)).
  { destruct (wf_reachable url t0 evs) as [H1 _].
    destruct (H1 id p (find_pending_in _ _ _ Hp)) as [(term & fs & ->) _].
    apply searchParams_well_formed. }
  subst w'. rewrite (step_resolve w id p response Hp).
  split; [|split].
  - intros k. simpl. now apply getAll_rewrite_query.
  - reflexivity.
  - intros term cp u u'. subst u'.
    assert (Hc : URLSearchParams.getAll "category"
                   (rewrite_query
                      (searchParams term
                         [("category", "Ciencias"); ("university", "")] cp) u)
                 = ["Ciencias"]).
    { rewrite getAll_rewrite_query by apply searchParams_well_formed. reflexivity. }
    split; [|split].
    + apply in_getAll. rewrite Hc. now left.
    + exact Hc.
    + rewrite getAll_rewrite_query by apply searchParams_well_formed. reflexivity.
Qed.

Lemma C6_witness :
  let w := run [] (mount [("ref", "x"); ("category", "Ciencias")] 0) in
  let w' := step (Resolve 0 (mkResponse [] 1)) w in
  URLSearchParams.getAll "category" (location w') = ["Ciencias"]
  /\ URLSearchParams.getAll "university" (location w') = []
  /\ URLSearchParams.getAll "ref" (location w') = ["x"].
Proof.
  intros w w'.
  destruct (C6_query_string_mirrors_parameters
              [("ref", "x"); ("category", "Ciencias")] 0 [] 0
              (mkPending false 1
                 (searchParams ""
                    [("category", "Ciencias"); ("university", "");
                     ("fromDate", ""); ("toDate", "")] 1))
              (mkResponse [] 1) eq_refl) as (Hk & _ & _).
  subst w' w. split; [|split].
  - rewrite (Hk "category"). reflexivity.
  - rewrite (Hk "university"). reflexivity.
  - rewrite (Hk "ref"). reflexivity.
Defined.

(** C4. The scenario of the specification: the first call on mount asks for
    query [''], page 1, limit 12 (with the four filters, all empty); its
    response [{data:[d1,d2], totalPages:3}] leaves results [d1,d2] and
    [hasMore]; a load-more then asks for page 2, and the response
    [{data:[d3], totalPages:3}] leaves results [d1,d2,d3] and [hasMore].
    In every world a successful fetch sets [hasMore] to
    [totalPages > currentPage], [currentPage] being the page that call
    asked for. *)
Theorem C4_initial_load_then_load_more :
  forall (t0 : nat) (d1 d2 d3 : DocumentSummary),
    let empty_filters :=
      [("category", JS.VStr ""); ("university", JS.VStr "");
       ("fromDate", JS.VStr ""); ("toDate", JS.VStr "")] in
    let w0 := mount [] t0 in
    let w1 := step (Resolve 0 (mkResponse [d1; d2] 3)) w0 in
    let w2 := step LoadMore w1 in
    let w3 := step (Resolve 1 (mkResponse [d3] 3)) w2 in
    requests w0 =
      [mkRequest 0 false
         ([("query", JS.VStr ""); ("page", JS.VNum 1); ("limit", JS.VNum 12)]
            ++ empty_filters)]
    /\ documents (st w1) = [d1; d2] /\ hasMore (st w1) = true
    /\ issued w1 w2 =
         [mkRequest 1 false
            ([("query", JS.VStr ""); ("page", JS.VNum 2); ("limit", JS.VNum 12)]
               ++ empty_filters)]
    /\ documents (st w3) = [d1; d2; d3] /\ hasMore (st w3) = true
    /\ (forall (w : World) (id : nat) (p : Pending) (response : Response),
          find_pending id (inflight w) = Some p ->
          hasMore (st (step (Resolve id response) w))
          = (p_currentPage p <? totalPages response)%Z).
Proof.
  intros t0 d1 d2 d3 empty_filters w0 w1 w2 w3.
  repeat split; try reflexivity.
  intros w id p response Hp. rewrite (step_resolve w id p response Hp).
  reflexivity.
Qed.

Lemma C4_witness :
  hasMore (st (step (Resolve 0 (mkResponse [Doc 1; Doc 2] 3)) (mount [] 0)))
  = (1 <? 3)%Z.
Proof.
  destruct (C4_initial_load_then_load_more 0 (Doc 1) (Doc 2) (Doc 3))
    as (_ & _ & _ & _ & _ & _ & H).
  exact (H (mount [] 0) 0
           (mkPending false 1
              (searchParams ""
                 [("category", ""); ("university", "");
                  ("fromDate", ""); ("toDate", "")] 1))
           (mkResponse [Doc 1; Doc 2] 3) eq_refl).
Defined.

End ControllerProperties.

(** ** The debounce *)

Section Debounce.

Import DocumentSearch.





(** Once the delay has passed the timer fires: one new search, with the
    term and the filters of the render that scheduled it. *)
Lemma step_elapse_fire (w : World) (d : nat) :
  armed w -> DEBOUNCE_MS <= d ->
  let w' := step (Elapse d) w in
  requests w' =
    requests w ++
      [mkRequest (length (requests w)) true
         (searchParams (searchTerm (st w)) (filters (st w)) 1)]
  /\ timers w' = [].
Proof.
  intros Ha Hd w'. subst w'. unfold step. simpl. unfold elapse. rewrite Ha. simpl.
  unfold is_due. simpl.
  assert (Hdue : (clock w + DEBOUNCE_MS <=? clock w + d)%nat = true)
    by (apply Nat.leb_le; lia).
  rewrite Hdue. simpl.
  rewrite commit_same_deps by reflexivity. simpl.
  rewrite Ha. simpl. rewrite Nat.eqb_refl. simpl. split; reflexivity.
Qed.


End Debounce.

(** ** New searches and the page cell *)

Section NewSearch.

Import DocumentSearch.

(** X15.  A new search asks for page 1 and its response replaces the results. *)
Lemma new_search_replaces_results :
  forall (url : URLSearchParams.t) (t0 : nat) (evs : list Event)
         (id : nat) (p : Pending) (response : Response),
    let w := run evs (mount url t0) in
    find_pending id (inflight w) = Some p ->
    p_isNewSearch p = true ->
    p_currentPage p = 1%Z
    /\ documents (st (step (Resolve id response) w)) = data response.
Proof.
  intros url t0 evs id p response w Hp Hnew. split.
  - destruct (wf_reachable url t0 evs) as [H1 _].
    now apply (H1 id p (find_pending_in _ _ _ Hp)).
  - rewrite (step_resolve w id p response Hp). simpl. now rewrite Hnew.
Qed.

Lemma fire_all_page (l : list Timer) (w : World) :
  page (st (fold_left (fun w' tm => fire tm w') l w)) = page (st w).
Proof.
  revert w. induction l as [|tm l IH]; simpl; intros w; [reflexivity|].
  now rewrite IH.
Qed.

Lemma page_step (ev : Event) (w : World) :
  page (st (step ev w)) = page (st (handle ev w)).
Proof.
  unfold step.
  now destruct (commit_frame (st w) (handle ev w)) as (_ & _ & _ & _ & Hpg & _).
Qed.

(** No event but a filter change or an unblocked load-more writes the page
    cell: a term change, the debounced fetch and its response leave it as
    it was. *)
Lemma page_kept (ev : Event) (w : World) :
  match ev with
  | ChangeFilters _ | LoadMore => True
  | _ => page (st (step ev w)) = page (st w)
  end.
Proof.
  destruct ev; try exact I; rewrite page_step; simpl.
  - reflexivity.
  - unfold elapse. simpl. apply fire_all_page.
  - destruct (find_pending id (inflight w)); reflexivity.
  - destruct (find_pending id (inflight w)); reflexivity.
Qed.

(** C1, at the input where the code departs from it.  After a load-more has
    brought the page cell to 2, a term change fires its debounced new
    search: the call asks for page 1 and the response replaces the results,
    but the page cell still holds 2, so that the next load-more asks for
    page 3 of the new search. *)
Theorem C1_term_search_leaves_page_cell :
  forall d1 d2 d4 : DocumentSummary,
    let w1 :=
      run [Resolve 0 (mkResponse [d1] 9); LoadMore;
           Resolve 1 (mkResponse [d2] 9)] (mount [] 0) in
    let w2 := run [ChangeTerm "tesis"; Elapse 500] w1 in
    let w3 := step (Resolve 2 (mkResponse [d4] 9)) w2 in
    page (st w1) = 2%Z
    /\ documents (st w1) = [d1; d2]
    /\ issued w1 w2 =
         [mkRequest 2 true
            [("query", JS.VStr "tesis"); ("page", JS.VNum 1);
             ("limit", JS.VNum 12); ("category", JS.VStr "");
             ("university", JS.VStr ""); ("fromDate", JS.VStr "");
             ("toDate", JS.VStr "")]]
    /\ documents (st w3) = [d4]
    /\ page (st w3) = 2%Z
    /\ map (fun r => JS.get "page" (r_params r)) (issued w3 (step LoadMore w3))
       = [Some (JS.VNum 3)].
Proof.
  intros d1 d2 d4 w1 w2 w3. repeat split; reflexivity.
Qed.

(** The same scenario at a slower pace: the debounced new search of the
    mount fires and is answered before the load-more, and the load-more
    itself schedules another one, whose response puts the results of page 1
    back in place of the accumulated list while the page cell stays at 2. *)
Lemma scenario_with_debounced_searches :
  forall d1 d2 d3 : DocumentSummary,
    let page1 := mkResponse [d1; d2] 3 in
    let w1 := run [Resolve 0 page1; Elapse 500; Resolve 1 page1] (mount [] 0) in
    let w2 := run [LoadMore; Resolve 2 (mkResponse [d3] 3)] w1 in
    let w3 := run [Elapse 500; Resolve 3 page1] w2 in
    map r_isNewSearch (requests w1) = [false; true]
    /\ documents (st w1) = [d1; d2]
    /\ documents (st w2) = [d1; d2; d3] /\ hasMore (st w2) = true
    /\ map r_isNewSearch (issued w2 w3) = [true]
    /\ documents (st w3) = [d1; d2] /\ page (st w3) = 2%Z.
Proof.
  intros d1 d2 d3 page1 w1 w2 w3. repeat split; reflexivity.
Qed.

End NewSearch.

(** ** Properties of the landing page *)

Section LandingPage.

Import HomePage.

Lemma run_app_home (evs1 evs2 : list Event) (w : World) :
  run (evs1 ++ evs2) w = run evs2 (run evs1 w).
Proof. unfold run. apply fold_left_app. Qed.

(** Once [Promise.all] has settled, nothing writes the state any more. *)
Lemma settled_step (ev : Event) (w : World) :
  settled w = true ->
  settled (step ev w) = true
  /\ hst (step ev w) = hst w
  /\ calls (step ev w) = calls w.
Proof.
  intros Hs. destruct ev; simpl.
  1: destruct (is_waiting (documentsData w)).
  3: destruct (is_waiting (documentsData w)).
  5: destruct (is_waiting (postsData w)).
  7: destruct (is_waiting (postsData w)).
  all: unfold promise_all; simpl; rewrite ?Hs; auto.
Qed.

Lemma settled_run (evs : list Event) (w : World) :
  settled w = true ->
  hst (run evs w) = hst w /\ calls (run evs w) = calls w.
Proof.
  unfold run. revert w. induction evs as [|ev evs IH]; simpl; intros w Hs; [auto|].
  destruct (settled_step ev w Hs) as (Hs' & Hh & Hc).
  destruct (IH _ Hs') as [Hh' Hc']. rewrite Hh', Hc'. auto.
Qed.

Lemma after_unmount_app (l1 l2 : list (Setter * bool)) :
  after_unmount (l1 ++ l2) = after_unmount l1 ++ after_unmount l2.
Proof. unfold after_unmount. now rewrite filter_app, map_app. Qed.

Lemma after_unmount_call (c : Setter) (w : World) :
  after_unmount (calls (call c w)) =
    after_unmount (calls w) ++ (if mounted w then [] else [c]).
Proof.
  simpl. rewrite after_unmount_app. unfold after_unmount at 2. simpl.
  destruct (mounted w); reflexivity.
Qed.

Lemma after_unmount_finally (w : World) :
  after_unmount (calls (finally w)) = after_unmount (calls w).
Proof.
  unfold finally. destruct (mounted w) eqn:Hm; [|reflexivity].
  rewrite after_unmount_call, Hm. apply app_nil_r.
Qed.

(** On the success path the guard works: a fulfilment makes no setter call
    on an unmounted component. *)
Lemma after_unmount_all_fulfilled (d p : payload) (w : World) :
  after_unmount (calls (all_fulfilled d p w)) = after_unmount (calls w).
Proof.
  unfold all_fulfilled. destruct (mounted w) eqn:Hm; simpl.
  - rewrite after_unmount_finally, !after_unmount_call. simpl.
    rewrite Hm. now rewrite !app_nil_r.
  - apply after_unmount_finally.
Qed.

(** The [catch] block is not guarded: a rejection after unmount calls
    [setError]. *)
Lemma after_unmount_all_rejected (e : JS.thrown) (w : World) :
  after_unmount (calls (all_rejected e w)) =
    after_unmount (calls w)
      ++ (if mounted w then [] else [SetError (JS.message_or_string e)]).
Proof.
  unfold all_rejected. rewrite after_unmount_finally. apply after_unmount_call.
Qed.

Lemma promise_all_after_unmount (w : World) :
  Forall is_set_error (after_unmount (calls w)) ->
  Forall is_set_error (after_unmount (calls (promise_all w))).
Proof.
  intros H. unfold promise_all. destruct (settled w); [assumption|].
  assert (Hrej : forall e,
            Forall is_set_error (after_unmount (calls (all_rejected e (set_settled w))))).
  { intros e. rewrite after_unmount_all_rejected. simpl.
    apply Forall_app. split; [assumption|].
    destruct (mounted w); repeat constructor. }
  assert (Hful : forall d p,
            Forall is_set_error (after_unmount (calls (all_fulfilled d p (set_settled w))))).
  { intros d p. now rewrite after_unmount_all_fulfilled. }
  destruct (documentsData w), (postsData w); auto.
Qed.

(** X18.  Whatever the events, the only setter ever called on an unmounted
    component is [setError]. *)
Lemma only_set_error_after_unmount (evs : list Event) :
  Forall is_set_error (after_unmount (calls (run evs mount))).
Proof.
  assert (H : forall w, Forall is_set_error (after_unmount (calls w)) ->
                        Forall is_set_error (after_unmount (calls (run evs w)))).
  { unfold run. induction evs as [|ev evs IH]; simpl; intros w Hw; [assumption|].
    apply IH. destruct ev; simpl.
    1: destruct (is_waiting (documentsData w)); [|assumption].
    2: destruct (is_waiting (documentsData w)); [|assumption].
    3: destruct (is_waiting (postsData w)); [|assumption].
    4: destruct (is_waiting (postsData w)); [|assumption].
    1-4: now apply promise_all_after_unmount.
    assumption. }
  apply H. simpl. constructor.
Qed.

(** C7, at the input where the code departs from it.  When the component
    has been unmounted and a fetch then rejects, [setError] is called all
    the same; when both fetches resolve after unmount no setter is called. *)
Theorem C7_rejection_after_unmount_calls_setter :
  after_unmount
    (calls (run [Unmount; PostsReject (JS.ErrorObject "Error" "timeout")] mount))
  = [SetError "timeout"]
  /\ forall d p : payload,
       after_unmount
         (calls (run [Unmount; DocumentsResolve d; PostsResolve p] mount)) = [].
Proof.
  split; [reflexivity|]. intros d p. reflexivity.
Qed.

(** C8, at the input where the code departs from it.  The documents fetch
    resolves and the posts fetch rejects with the empty string: [error] is
    set to the empty string, which [if (error)] takes for no error, and the
    page is rendered, with both lists empty, in place of the error view.
    With a rejection whose message is [timeout] the error view is shown,
    with the text [Error: timeout]. *)
Theorem C8_empty_text_rejection_renders_page :
  let failing :=
    [DocumentsResolve (Array [Item 1]); PostsReject (JS.ThrownString "")] in
  let timeout :=
    [DocumentsResolve (Array [Item 1]);
     PostsReject (JS.ErrorObject "Error" "timeout")] in
  first_rejection (JS.ThrownString "") failing
  /\ error (hst (run failing mount)) = Some ""
  /\ isLoading (hst (run failing mount)) = false
  /\ render (hst (run failing mount)) = Page [] []
  /\ render (hst (run timeout mount)) = ErrorMessage "Error: timeout".
Proof.
  intros failing timeout. split; [constructor|]. repeat split.
Qed.

(** C10.  When both fetches resolve, in either order, each list cell is set
    to the array the fetch returned, or to the empty list when it returned
    null or undefined; the loading flag is cleared, no error is set, and the
    page is rendered from those two lists. *)
Theorem C10_null_results_become_empty_lists :
  forall (d p : payload) (post : list Event),
    let s1 := hst (run ([DocumentsResolve d; PostsResolve p] ++ post) mount) in
    let s2 := hst (run ([PostsResolve p; DocumentsResolve d] ++ post) mount) in
    s1 = mkState (or_empty_array d) (or_empty_array p) false None
    /\ s2 = s1
    /\ render s1 = Page (or_empty_array d) (or_empty_array p)
    /\ or_empty_array Null = [] /\ or_empty_array Undefined = []
    /\ (forall items, or_empty_array (Array items) = items).
Proof.
  intros d p post s1 s2.
  assert (H1 : s1 = mkState (or_empty_array d) (or_empty_array p) false None).
  { subst s1. rewrite run_app_home.
    match goal with
    | |- context [run post ?w] =>
        rewrite (proj1 (settled_run post w eq_refl)); reflexivity
    end. }
  assert (H2 : s2 = mkState (or_empty_array d) (or_empty_array p) false None).
  { subst s2. rewrite run_app_home.
    match goal with
    | |- context [run post ?w] =>
        rewrite (proj1 (settled_run post w eq_refl)); reflexivity
    end. }
  rewrite H2, H1. repeat split.
Qed.

End LandingPage.

(** ** Invariants of the search controller *)

Section ReachableWorlds.

Import DocumentSearch.

(** Firing timers raises the loading flag and makes calls; it touches no
    other state cell, nor the address bar, the history or the console. *)
Lemma fire_all_frame (l : list Timer) (w : World) :
  let w' := fold_left (fun w0 tm => fire tm w0) l w in
  closure_of (st w') = closure_of (st w)
  /\ filtersRef (st w') = filtersRef (st w)
  /\ documents (st w') = documents (st w)
  /\ hasMore (st w') = hasMore (st w)
  /\ location w' = location w
  /\ history w' = history w
  /\ console w' = console w
  /\ handler w' = handler w
  /\ length (inflight w') = length (inflight w) + length l.
Proof.
  revert w. induction l as [|tm l IH]; intros w; simpl.
  - repeat split; lia.
  - destruct (IH (fire tm w)) as (H1 & H2 & H3 & H4 & H5 & H6 & H7 & H8 & H9).
    rewrite H1, H2, H3, H4, H5, H6, H7, H8, H9. simpl.
    repeat split. rewrite length_app. simpl. lia.
Qed.

Lemma fire_all_timers (l : list Timer) (w : World) :
  let w' := fold_left (fun w0 tm => fire tm w0) l w in
  length (timers w') <= length (timers w)
  /\ forall tm, In tm (timers w') -> In tm (timers w).
Proof.
  revert w. induction l as [|tm l IH]; intros w; simpl; [split; auto|].
  destruct (IH (fire tm w)) as [Hlen Hin]. simpl in Hlen, Hin. split.
  - etransitivity; [exact Hlen|]. apply filter_length_le.
  - intros tm' H. apply Hin in H. eapply in_drop_timer; eauto.
Qed.

(** An invariant of [step] that holds after mount holds in every reachable
    world. *)
Lemma reachable_invariant (P : World -> Prop) (url : URLSearchParams.t) (t0 : nat) :
  P (mount url t0) ->
  (forall ev w, wf_world w -> P w -> P (step ev w)) ->
  forall evs, P (run evs (mount url t0)).
Proof.
  intros H0 Hstep evs.
  assert (H : forall w, wf_world w -> P w -> P (run evs w)).
  { induction evs as [|ev evs IH]; intros w Hw HP; [exact HP|].
    rewrite run_cons. apply IH; [now apply wf_step | now apply Hstep]. }
  apply H; [apply wf_mount | exact H0].
Qed.

(** The handler of an event leaves the term, the filters and the page as
    they were, or changes the term, the identity of the filters or the
    page. *)
Lemma handle_deps (ev : Event) (w : World) :
  (closure_of (st (handle ev w)) = closure_of (st w)
   /\ filtersRef (st (handle ev w)) = filtersRef (st w))
  \/ (searchTerm (st (handle ev w)) <> searchTerm (st w)
      \/ filtersRef (st (handle ev w)) <> filtersRef (st w)
      \/ page (st (handle ev w)) <> page (st w)).
Proof.
  destruct ev; simpl.
  - destruct (String.eqb_spec term (searchTerm (st w))) as [->|Hne].
    + left. split; reflexivity.
    + right. left. exact Hne.
  - right. right. left. lia.
  - unfold handleLoadMore.
    destruct (negb (loading (st w)) && hasMore (st w)).
    + right. right. right. simpl. lia.
    + left. split; reflexivity.
  - left. unfold elapse. simpl.
    destruct (fire_all_frame (filter (is_due (clock w + dt)) (timers w)) w)
      as (H1 & H2 & _). split; assumption.
  - left. destruct (find_pending id (inflight w)); split; reflexivity.
  - left. destruct (find_pending id (inflight w)); split; reflexivity.
Qed.

Lemma handle_timers (ev : Event) (w : World) :
  length (timers (handle ev w)) <= length (timers w)
  /\ forall tm, In tm (timers (handle ev w)) -> In tm (timers w).
Proof.
  destruct ev; simpl; try (split; auto; fail).
  - unfold handleLoadMore.
    destruct (negb (loading (st w)) && hasMore (st w)); split; auto.
  - unfold elapse. simpl. apply fire_all_timers.
  - destruct (find_pending id (inflight w)); split; auto.
  - destruct (find_pending id (inflight w)); split; auto.
Qed.

(** A commit that saw the term, the filters or the page change leaves one
    timer, just scheduled, holding the closure of the new render. *)
Lemma commit_rearm_any (prev : State) (w : World) :
  wf_world w ->
  searchTerm prev <> searchTerm (st w)
  \/ filtersRef prev <> filtersRef (st w)
  \/ page prev <> page (st w) ->
  let w' := commit prev w in
  armed w' /\ closure_of (st w') = closure_of (st w) /\ clock w' = clock w.
Proof.
  intros Hw Hch w'. subst w'. unfold commit, armed.
  assert (Hdeb : negb (searchTerm prev =? searchTerm (st w))
                 || negb (filtersRef prev =? filtersRef (st w))%nat
                 || (negb (searchTerm prev =? searchTerm (st w))
                     || negb (filtersRef prev =? filtersRef (st w))%nat
                     || negb (page prev =? page (st w))%Z) = true).
  { destruct Hch as [H|[H|H]].
    - apply String.eqb_neq in H. now rewrite H.
    - apply Nat.eqb_neq in H. rewrite H. simpl.
      now rewrite orb_true_r.
    - apply Z.eqb_neq in H. rewrite H. simpl. now rewrite !orb_true_r. }
  rewrite Hdeb.
  destruct (negb (page prev =? page (st w))%Z); simpl;
    rewrite (drop_timer_all (handler w) (timers w) (proj2 Hw));
    repeat split; reflexivity.
Qed.

Lemma closure_of_inj (s1 s2 : State) :
  closure_of s1 = closure_of s2 ->
  searchTerm s1 = searchTerm s2 /\ filters s1 = filters s2 /\ page s1 = page s2.
Proof. unfold closure_of. intros [= H1 H2 H3]. auto. Qed.

Lemma timer_current_step (ev : Event) (w : World) :
  wf_world w -> timer_current w -> timer_current (step ev w).
Proof.
  intros Hw [Hlen Hcl]. unfold step.
  destruct (handle_timers ev w) as [Hl Hi].
  destruct (handle_deps ev w) as [[Hc Hr]|Hch].
  - destruct (closure_of_inj _ _ Hc) as (Ht & _ & Hp).
    rewrite commit_same_deps by congruence.
    split; [lia|]. intros tm Hin. rewrite Hc. auto.
  - destruct (commit_rearm_any (st w) (handle ev w)) as (Ha & Hc & _).
    + now apply wf_handle.
    + destruct Hch as [H|[H|H]]; [left|right; left|right; right]; congruence.
    + unfold armed in Ha. unfold timer_current. rewrite Ha. simpl.
      split; [lia|]. intros tm [<-|[]]. reflexivity.
Qed.

Lemma timer_current_mount (url : URLSearchParams.t) (t0 : nat) :
  timer_current (mount url t0).
Proof. split; simpl; [lia|]. intros tm [<-|[]]. reflexivity. Qed.

(** In every reachable world at most one timer is pending and it holds the
    term, the filters and the page of the current state. *)
Lemma timer_current_reachable (url : URLSearchParams.t) (t0 : nat) (evs : list Event) :
  timer_current (run evs (mount url t0)).
Proof.
  apply reachable_invariant; [apply timer_current_mount|].
  intros ev w Hw H. now apply timer_current_step.
Qed.

(** X2.  Whenever time passes, at most one call is made; it is a new search for
    page 1 that carries the term and the filters the state holds at that
    moment, and the term, the filters and the page are left as they were. *)
Theorem debounce_fires_with_current_values :
  forall (url : URLSearchParams.t) (t0 : nat) (evs : list Event) (dt : nat),
    let w := run evs (mount url t0) in
    let w' := step (Elapse dt) w in
    (issued w w' = []
     \/ issued w w' =
          [mkRequest (length (requests w)) true
             (searchParams (searchTerm (st w)) (filters (st w)) 1)])
    /\ closure_of (st w') = closure_of (st w)
    /\ timers w' = filter (fun tm => negb (is_due (clock w + dt) tm)) (timers w).
Proof.
  intros url t0 evs dt w w'.
  destruct (timer_current_reachable url t0 evs) as [Hlen Hcl]. fold w in Hlen, Hcl.
  assert (Hstep : w' = elapse dt w).
  { subst w'. unfold step. simpl.
    destruct (fire_all_frame (filter (is_due (clock w + dt)) (timers w)) w)
      as (H1 & H2 & _).
    destruct (closure_of_inj _ _ H1) as (Ht & _ & Hp).
    apply commit_same_deps; unfold elapse; simpl; congruence. }
  rewrite Hstep. unfold elapse.
  destruct (timers w) as [|tm [|tm' l]] eqn:Htm; simpl in Hlen; [| |lia].
  - simpl. split; [|split].
    + left. apply issued_app. simpl. now rewrite app_nil_r.
    + reflexivity.
    + exact Htm.
  - simpl. destruct (is_due (clock w + dt) tm) eqn:Hdue; simpl.
    + rewrite Htm. simpl. rewrite Nat.eqb_refl. simpl. split; [|split].
      * right. apply issued_app. simpl.
        rewrite (Hcl tm (or_introl eq_refl)). reflexivity.
      * reflexivity.
      * reflexivity.
    + split; [|split].
      * left. apply issued_app. simpl. now rewrite app_nil_r.
      * reflexivity.
      * exact Htm.
Qed.

Lemma keys_assign_in {V : Type} (a b : JS.obj V) (x : string) :
  In x (JS.keys (JS.assign a b)) <-> In x (JS.keys a) \/ In x (JS.keys b).
Proof.
  unfold JS.assign. revert a.
  induction b as [|[k v] b IH]; simpl; intros a; [tauto|].
  rewrite IH, keys_set_in. intuition (subst; auto).
Qed.

Lemma filters_ok_spread (prev newFilters : JS.obj string) :
  filters_ok prev -> filters_ok (JS.spread2 prev newFilters).
Proof.
  intros [Hwf Hk]. unfold JS.spread2. split.
  - apply assign_well_formed, assign_well_formed. constructor.
  - intros k Hin. apply keys_assign_in. left. apply keys_assign_in. right. auto.
Qed.

Lemma filters_ok_initial (url : URLSearchParams.t) :
  filters_ok (filters (initial_state url)).
Proof.
  split.
  - unfold JS.well_formed. simpl. repeat constructor; simpl; intuition discriminate.
  - intros k Hin. exact Hin.
Qed.

Lemma handle_state_ok (ev : Event) (w : World) :
  filters_ok (filters (st w)) -> (1 <= page (st w))%Z ->
  filters_ok (filters (st (handle ev w))) /\ (1 <= page (st (handle ev w)))%Z.
Proof.
  intros Hf Hp. destruct ev; simpl.
  - auto.
  - split; [now apply filters_ok_spread | lia].
  - unfold handleLoadMore.
    destruct (negb (loading (st w)) && hasMore (st w)); simpl; split; auto; lia.
  - unfold elapse. simpl.
    destruct (fire_all_frame (filter (is_due (clock w + dt)) (timers w)) w) as (H1 & _).
    destruct (closure_of_inj _ _ H1) as (_ & Hf' & Hp').
    rewrite Hf', Hp'. auto.
  - destruct (find_pending id (inflight w)); auto.
  - destruct (find_pending id (inflight w)); auto.
Qed.

Lemma step_state_ok (ev : Event) (w : World) :
  filters_ok (filters (st w)) -> (1 <= page (st w))%Z ->
  filters_ok (filters (st (step ev w))) /\ (1 <= page (st (step ev w)))%Z.
Proof.
  intros Hf Hp. unfold step.
  destruct (commit_frame (st w) (handle ev w)) as (_ & Hf' & _ & _ & Hp' & _).
  rewrite Hf', Hp'. now apply handle_state_ok.
Qed.

(** X1.  In every reachable world the page cell is at least 1, and the filters
    object has each key once and still has the four keys it started with,
    whatever updates were merged into it. *)
Theorem page_and_filters_reachable :
  forall (url : URLSearchParams.t) (t0 : nat) (evs : list Event),
    let w := run evs (mount url t0) in
    (1 <= page (st w))%Z
    /\ JS.well_formed (filters (st w))
    /\ forall k, In k FILTER_KEYS -> exists v, JS.get k (filters (st w)) = Some v.
Proof.
  intros url t0 evs w.
  assert (H : filters_ok (filters (st w)) /\ (1 <= page (st w))%Z).
  { subst w. apply reachable_invariant.
    - split; [apply filters_ok_initial | simpl; lia].
    - intros ev w _ [Hf Hp]. now apply step_state_ok. }
  destruct H as [[Hwf Hk] Hp]. split; [exact Hp|]. split; [exact Hwf|].
  intros k Hin. apply Hk in Hin. clear -Hin.
  induction (filters (st w)) as [|[k0 v0] l IH]; simpl in *; [contradiction|].
  destruct (String.eqb_spec k0 k) as [->|Hne]; [eauto|].
  apply IH. destruct Hin; [congruence | assumption].
Qed.

Lemma keys_map_VStr (fs : JS.obj string) :
  JS.keys (map (fun kv => (fst kv, JS.VStr (snd kv))) fs) = JS.keys fs.
Proof. unfold JS.keys. rewrite map_map. reflexivity. Qed.

Lemma get_map_VStr (k : string) (fs : JS.obj string) :
  JS.get k (map (fun kv => (fst kv, JS.VStr (snd kv))) fs)
  = option_map JS.VStr (JS.get k fs).
Proof.
  induction fs as [|[k0 v0] fs IH]; simpl; [reflexivity|].
  destruct (k0 =? k); [reflexivity | exact IH].
Qed.

Lemma searchParams_get (term : string) (fs : JS.obj string) (cp : Z) (k : string) :
  JS.well_formed fs ->
  JS.get k (searchParams term fs cp) =
    match JS.get k fs with
    | Some v => Some (JS.VStr v)
    | None =>
        JS.get k [("query", JS.VStr term); ("page", JS.VNum cp);
                  ("limit", JS.VNum 12)]
    end.
Proof.
  intros Hwf. unfold searchParams.
  rewrite get_assign.
  - rewrite get_map_VStr. destruct (JS.get k fs); reflexivity.
  - unfold JS.well_formed. now rewrite keys_map_VStr.
Qed.

(** X3.  The filters are spread last into the parameter object: a filter named
    [query], [page] or [limit] replaces the controller's own value under
    that key (as a string); every other filter is passed as it is, and
    without such a filter the object carries the term, the page asked for
    and the limit 12. *)
Theorem filters_override_own_parameters :
  forall (term : string) (fs : JS.obj string) (cp : Z) (k : string),
    JS.well_formed fs ->
    JS.get k (searchParams term fs cp) =
      match JS.get k fs with
      | Some v => Some (JS.VStr v)
      | None =>
          JS.get k [("query", JS.VStr term); ("page", JS.VNum cp);
                    ("limit", JS.VNum 12)]
      end.
Proof.
  intros term fs cp k Hwf. now apply searchParams_get.
Qed.

Lemma filters_override_witness :
  JS.get "page" (searchParams "tesis" [("category", "Ciencias"); ("page", "7")] 1)
  = Some (JS.VStr "7")
  /\ JS.get "page" (searchParams "tesis" [("category", "Ciencias")] 1)
     = Some (JS.VNum 1).
Proof.
  split.
  - rewrite (filters_override_own_parameters "tesis"
               [("category", "Ciencias"); ("page", "7")] 1 "page").
    + reflexivity.
    + unfold JS.well_formed. simpl. repeat constructor; simpl; intuition discriminate.
  - reflexivity.
Defined.

Lemma get_in_keys {V : Type} (k : string) (o : JS.obj V) :
  In k (JS.keys o) -> exists v, JS.get k o = Some v.
Proof.
  induction o as [|[k0 v0] o IH]; simpl; [contradiction|].
  destruct (String.eqb_spec k0 k) as [->|Hne]; [eauto|].
  intros [H|H]; [congruence | auto].
Qed.

Lemma good_fetch (c : Closure) (isNewSearch : bool) (w : World) :
  filters_ok (c_filters c) -> (1 <= c_page c)%Z ->
  Forall good_request (requests w) ->
  Forall good_request (requests (fetchDocuments c isNewSearch w)).
Proof.
  intros Hf Hp Hr. simpl. apply Forall_app. split; [assumption|].
  constructor; [|constructor].
  exists (c_searchTerm c), (c_filters c), (if isNewSearch then 1%Z else c_page c).
  simpl. split; [reflexivity|]. split; [assumption|].
  split; [destruct isNewSearch; lia|]. intros ->. reflexivity.
Qed.

Lemma good_fire_all (l : list Timer) :
  forall w : World,
    (forall tm, In tm l ->
       filters_ok (c_filters (t_closure tm)) /\ (1 <= c_page (t_closure tm))%Z) ->
    Forall good_request (requests w) ->
    Forall good_request (requests (fold_left (fun w0 tm => fire tm w0) l w)).
Proof.
  induction l as [|tm l IH]; intros w Hl Hr; simpl; [assumption|].
  apply IH; [intros tm' H; apply Hl; now right|].
  unfold fire. destruct (Hl tm (or_introl eq_refl)) as [Hf Hp].
  now apply good_fetch.
Qed.

Lemma good_handle (ev : Event) (w : World) :
  filters_ok (filters (st w)) -> (1 <= page (st w))%Z ->
  timer_current w ->
  Forall good_request (requests w) ->
  Forall good_request (requests (handle ev w)).
Proof.
  intros Hf Hp [_ Hcl] Hr. destruct ev; simpl; try assumption.
  - unfold handleLoadMore.
    destruct (negb (loading (st w)) && hasMore (st w)); assumption.
  - unfold elapse. simpl. apply good_fire_all; [|assumption].
    intros tm Hin. apply filter_In in Hin. destruct Hin as [Hin _].
    rewrite (Hcl tm Hin). simpl. auto.
  - destruct (find_pending id (inflight w)); assumption.
  - destruct (find_pending id (inflight w)); assumption.
Qed.

Lemma good_commit (prev : State) (w : World) :
  filters_ok (filters (st w)) -> (1 <= page (st w))%Z ->
  Forall good_request (requests w) ->
  Forall good_request (requests (commit prev w)).
Proof.
  intros Hf Hp Hr. unfold commit.
  destruct (negb (searchTerm prev =? searchTerm (st w))
            || negb (filtersRef prev =? filtersRef (st w))%nat
            || (negb (searchTerm prev =? searchTerm (st w))
                || negb (filtersRef prev =? filtersRef (st w))%nat
                || negb (page prev =? page (st w))%Z));
    destruct (negb (page prev =? page (st w))%Z); simpl; try assumption;
    apply Forall_app; (split; [assumption|]);
    (constructor; [|constructor]);
    exists (searchTerm (st w)), (filters (st w)), (page (st w));
    simpl; (split; [reflexivity|]); (split; [assumption|]);
    (split; [assumption | discriminate]).
Qed.

(** X4.  Every call of [searchDocuments] ever made carries the seven parameters:
    the four initial filter keys as strings, whatever updates were merged
    into the filters, and [query], [page] and [limit]; its parameters were
    built from well-formed filters for a page that is at least 1, and
    exactly 1 for a new search. *)
Theorem every_request_carries_all_parameters :
  forall (url : URLSearchParams.t) (t0 : nat) (evs : list Event) (r : Request),
    In r (requests (run evs (mount url t0))) ->
    good_request r
    /\ (forall k, In k FILTER_KEYS ->
          exists v, JS.get k (r_params r) = Some (JS.VStr v))
    /\ (forall k, In k ["query"; "page"; "limit"] ->
          exists v, JS.get k (r_params r) = Some v).
Proof.
  intros url t0 evs r Hin.
  assert (H : let w := run evs (mount url t0) in
              (filters_ok (filters (st w)) /\ (1 <= page (st w))%Z)
              /\ timer_current w /\ Forall good_request (requests w)).
  { apply reachable_invariant.
    - split; [split; [apply filters_ok_initial | simpl; lia]|].
      split; [apply timer_current_mount|].
      simpl. constructor; [|constructor].
      exists (searchTerm (initial_state url)), (filters (initial_state url)), 1%Z.
      simpl. split; [reflexivity|]. split; [apply filters_ok_initial|].
      split; [lia | discriminate].
    - intros ev w Hw [[Hf Hp] [Ht Hr]].
      destruct (step_state_ok ev w Hf Hp) as [Hf' Hp'].
      split; [split; assumption|]. split; [now apply timer_current_step|].
      unfold step. destruct (handle_state_ok ev w Hf Hp) as [Hf1 Hp1].
      apply good_commit; try assumption. now apply good_handle. }
  destruct H as (_ & _ & Hr).
  pose proof (proj1 (Forall_forall _ _) Hr r Hin) as Hg.
  split; [exact Hg|].
  destruct Hg as (term & fs & cp & Hparams & [Hwf Hk] & _).
  rewrite Hparams. split; intros k Hin'.
  - rewrite searchParams_get by assumption.
    destruct (get_in_keys k fs (Hk k Hin')) as [v Hv]. rewrite Hv. eauto.
  - rewrite searchParams_get by assumption.
    destruct (JS.get k fs); [eauto|].
    simpl in Hin'. destruct Hin' as [<-|[<-|[<-|[]]]]; simpl; eauto.
Qed.

Lemma every_request_witness :
  good_request
    (mkRequest 0 false
       (searchParams "" [("category", ""); ("university", "");
                          ("fromDate", ""); ("toDate", "")] 1)).
Proof.
  apply (every_request_carries_all_parameters [] 0 []). simpl. left. reflexivity.
Defined.

Lemma commit_idle (prev : State) (w : World) :
  inflight (commit prev w) = [] ->
  inflight w = [] /\ loading (st (commit prev w)) = loading (st w).
Proof.
  unfold commit.
  destruct (negb (searchTerm prev =? searchTerm (st w))
            || negb (filtersRef prev =? filtersRef (st w))%nat
            || (negb (searchTerm prev =? searchTerm (st w))
                || negb (filtersRef prev =? filtersRef (st w))%nat
                || negb (page prev =? page (st w))%Z));
    destruct (negb (page prev =? page (st w))%Z); simpl; intros H; auto;
    apply app_eq_nil in H; destruct H; discriminate.
Qed.

Lemma handle_idle (ev : Event) (w : World) :
  (inflight w = [] -> loading (st w) = false) ->
  inflight (handle ev w) = [] -> loading (st (handle ev w)) = false.
Proof.
  intros Hw. destruct ev; simpl; auto.
  - unfold handleLoadMore.
    destruct (negb (loading (st w)) && hasMore (st w)); simpl; auto.
  - unfold elapse. simpl. intros H.
    destruct (fire_all_frame (filter (is_due (clock w + dt)) (timers w)) w)
      as (_ & _ & _ & _ & _ & _ & _ & _ & Hlen).
    simpl in Hlen. rewrite H in Hlen. simpl in Hlen.
    assert (Hl : filter (is_due (clock w + dt)) (timers w) = []).
    { destruct (filter (is_due (clock w + dt)) (timers w)); [reflexivity|].
      simpl in Hlen. lia. }
    rewrite Hl. simpl. apply Hw.
    destruct (inflight w); [reflexivity | simpl in Hlen; lia].
  - destruct (find_pending id (inflight w)); simpl; auto.
  - destruct (find_pending id (inflight w)); simpl; auto.
Qed.

(** X5.  The loading flag does not stay raised: in every reachable world in
    which no call is awaiting its response, [loading] is false. *)
Theorem idle_is_not_loading :
  forall (url : URLSearchParams.t) (t0 : nat) (evs : list Event),
    let w := run evs (mount url t0) in
    inflight w = [] -> loading (st w) = false.
Proof.
  intros url t0 evs w. subst w.
  apply (reachable_invariant (fun w => inflight w = [] -> loading (st w) = false)).
  - simpl. discriminate.
  - intros ev w _ Hw H. unfold step in *.
    destruct (commit_idle _ _ H) as [Hi Hl]. rewrite Hl.
    now apply handle_idle.
Qed.

Lemma idle_is_not_loading_witness :
  let w := run [Resolve 0 (mkResponse [] 1)] (mount [] 0) in
  inflight w = [] /\ loading (st w) = false.
Proof.
  intros w. split; [reflexivity|].
  apply (idle_is_not_loading [] 0 [Resolve 0 (mkResponse [] 1)]). reflexivity.
Defined.

(** X6.  The address bar always shows the last address the component pushed on
    the history, or the address it was mounted at when it has pushed none;
    only a successful response pushes, and it pushes exactly one entry. *)
Theorem address_is_last_push :
  forall (url : URLSearchParams.t) (t0 : nat) (evs : list Event),
    let w := run evs (mount url t0) in
    location w = last (history w) url
    /\ forall ev,
         history (step ev w) = history w
         \/ (exists id response,
               ev = Resolve id response
               /\ history (step ev w) = history w ++ [location (step ev w)]).
Proof.
  intros url t0 evs w. split.
  - subst w.
    apply (reachable_invariant (fun w => location w = last (history w) url));
      [reflexivity|].
    intros ev w _ Hw. unfold step.
    destruct (commit_frame (st w) (handle ev w))
      as (_ & _ & _ & _ & _ & _ & Hl & Hh & _).
    rewrite Hl, Hh. destruct ev; simpl; try assumption.
    + unfold handleLoadMore.
      destruct (negb (loading (st w)) && hasMore (st w)); assumption.
    + unfold elapse. simpl.
      destruct (fire_all_frame (filter (is_due (clock w + dt)) (timers w)) w)
        as (_ & _ & _ & _ & Hl' & Hh' & _).
      now rewrite Hl', Hh'.
    + destruct (find_pending id (inflight w)); [|assumption].
      simpl. now rewrite last_last.
    + destruct (find_pending id (inflight w)); assumption.
  - intros ev. unfold step.
    destruct (commit_frame (st w) (handle ev w))
      as (_ & _ & _ & _ & _ & _ & Hl & Hh & _).
    rewrite Hl, Hh. destruct ev; simpl; auto.
    + unfold handleLoadMore.
      destruct (negb (loading (st w)) && hasMore (st w)); auto.
    + unfold elapse. simpl.
      destruct (fire_all_frame (filter (is_due (clock w + dt)) (timers w)) w)
        as (_ & _ & _ & _ & _ & Hh' & _).
      left. exact Hh'.
    + destruct (find_pending id (inflight w)); [|auto].
      right. exists id, response. split; reflexivity.
    + destruct (find_pending id (inflight w)); auto.
Qed.

Lemma page_and_filters_witness :
  let w := run [ChangeFilters [("category", "Ciencias")]; LoadMore] (mount [] 0) in
  exists v, JS.get "university" (filters (st w)) = Some v.
Proof.
  intros w.
  apply (proj2 (proj2 (page_and_filters_reachable [] 0
                         [ChangeFilters [("category", "Ciencias")]; LoadMore]))).
  simpl. auto.
Defined.

(** X13.  Who writes the page cell: a filter change sets it to 1, a load-more
    that is not blocked raises it by one, and no other event touches it; in
    particular neither a term change nor a new search and its response
    bring it back to 1. *)
Theorem page_cell_writers :
  forall (ev : Event) (w : World),
    page (st (step ev w)) =
      match ev with
      | ChangeFilters _ => 1%Z
      | LoadMore =>
          if negb (loading (st w)) && hasMore (st w)
          then (page (st w) + 1)%Z else page (st w)
      | _ => page (st w)
      end.
Proof.
  intros ev w. rewrite page_step. destruct ev; simpl.
  - reflexivity.
  - reflexivity.
  - unfold handleLoadMore.
    destruct (negb (loading (st w)) && hasMore (st w)); reflexivity.
  - unfold elapse. simpl. apply fire_all_page.
  - destruct (find_pending id (inflight w)); reflexivity.
  - destruct (find_pending id (inflight w)); reflexivity.
Qed.

(** X14.  What a change fetches at once, before any debounce: a term change
    makes no call; a filter change makes none when the page cell is 1, and
    otherwise, through the page effect, one appending call for page 1 with
    the merged filters, whose response is added to the results on
    display. *)
Theorem change_fetches_at_once_only_off_page_one :
  forall (w : World) (term : string) (newFilters : JS.obj string),
    issued w (step (ChangeTerm term) w) = []
    /\ issued w (step (ChangeFilters newFilters) w) =
         (if (page (st w) =? 1)%Z then []
          else [mkRequest (length (requests w)) false
                  (searchParams (searchTerm (st w))
                     (JS.spread2 (filters (st w)) newFilters) 1)]).
Proof.
  intros w term newFilters. split.
  - apply issued_app. unfold step, commit. simpl.
    rewrite Nat.eqb_refl, Z.eqb_refl. simpl.
    destruct (negb (searchTerm (st w) =? term)); simpl; now rewrite app_nil_r.
  - apply issued_app. unfold step, commit. simpl.
    rewrite String.eqb_refl.
    assert (Hr : (filtersRef (st w) =? S (filtersRef (st w)))%nat = false)
      by (apply Nat.eqb_neq; lia).
    rewrite Hr. simpl.
    destruct (page (st w) =? 1)%Z; simpl; [now rewrite app_nil_r | reflexivity].
Qed.

Lemma new_search_witness :
  let w := run [Elapse 500] (mount [] 0) in
  documents (st (step (Resolve 1 (mkResponse [Doc 7] 1)) w)) = [Doc 7].
Proof.
  intros w.
  apply (new_search_replaces_results [] 0 [Elapse 500] 1
           (mkPending true 1 (searchParams "" (filters (st w)) 1))
           (mkResponse [Doc 7] 1) eq_refl eq_refl).
Defined.

End ReachableWorlds.

(** ** Mount, load-more and the order of responses *)

Section Pagination.

Import DocumentSearch.

Lemma armed_mount (url : URLSearchParams.t) (t0 : nat) : armed (mount url t0).
Proof. reflexivity. Qed.

Lemma commit_keeps_loading (prev : State) (w : World) :
  loading (st w) = true -> loading (st (commit prev w)) = true.
Proof.
  intros H. unfold commit.
  destruct (negb (searchTerm prev =? searchTerm (st w))
            || negb (filtersRef prev =? filtersRef (st w))%nat
            || (negb (searchTerm prev =? searchTerm (st w))
                || negb (filtersRef prev =? filtersRef (st w))%nat
                || negb (page prev =? page (st w))%Z));
    destruct (negb (page prev =? page (st w))%Z); simpl; auto.
Qed.

Lemma fire_all_keeps_loading (l : list Timer) (w : World) :
  loading (st w) = true ->
  loading (st (fold_left (fun w0 tm => fire tm w0) l w)) = true.
Proof.
  revert w. induction l as [|tm l IH]; simpl; intros w H; [exact H|].
  apply IH. reflexivity.
Qed.

(** Before the first completion nothing lowers the loading flag, fills the
    list or clears [hasMore]. *)
Lemma waiting_for_first_response (evs : list Event) :
  forall w : World,
    Forall no_completion evs ->
    loading (st w) = true -> documents (st w) = [] -> hasMore (st w) = true ->
    loading (st (run evs w)) = true
    /\ documents (st (run evs w)) = []
    /\ hasMore (st (run evs w)) = true.
Proof.
  induction evs as [|ev evs IH]; intros w Hno Hl Hd Hm; [auto|].
  inversion Hno as [|? ? Hev Hno']; subst.
  rewrite run_cons. apply IH; [exact Hno'| | |]; unfold step.
  - apply commit_keeps_loading. destruct ev; simpl in *; try assumption.
    + unfold handleLoadMore. rewrite Hl. simpl. exact Hl.
    + unfold elapse. simpl. now apply fire_all_keeps_loading.
    + contradiction.
    + contradiction.
  - destruct (commit_frame (st w) (handle ev w)) as (_ & _ & _ & Hd' & _).
    rewrite Hd'. destruct ev; simpl in *; try assumption.
    + unfold handleLoadMore. rewrite Hl. simpl. exact Hd.
    + unfold elapse. simpl.
      destruct (fire_all_frame (filter (is_due (clock w + dt)) (timers w)) w)
        as (_ & _ & H & _).
      now rewrite H.
    + contradiction.
    + contradiction.
  - destruct (commit_frame (st w) (handle ev w)) as (_ & _ & _ & _ & _ & Hm' & _).
    rewrite Hm'. destruct ev; simpl in *; try assumption.
    + unfold handleLoadMore. rewrite Hl. simpl. exact Hm.
    + unfold elapse. simpl.
      destruct (fire_all_frame (filter (is_due (clock w + dt)) (timers w)) w)
        as (_ & _ & _ & H & _).
      now rewrite H.
    + contradiction.
    + contradiction.
Qed.

(** X7.  Every page load makes the same call twice: once at mount, as an
    appending fetch for page 1 with the term and the filters read from the
    address, and once more, as a new search, when the debounce delay has
    passed without a change.  The first render, made from the initial state
    before the effects run, shows the no-results message without the
    loading indicator; from the moment the effects have run until the first
    completion of a call, whatever else happens, the view shows an empty
    grid, a disabled button labelled [Cargando...] and the loading
    indicator. *)
Theorem mount_fetches_twice :
  forall (url : URLSearchParams.t) (t0 d : nat) (evs : list Event),
    DEBOUNCE_MS <= d ->
    Forall no_completion evs ->
    let w := mount url t0 in
    let params :=
      searchParams (JS.or_empty (URLSearchParams.get "query" url))
                   (filters (initial_state url)) 1 in
    requests w = [mkRequest 0 false params]
    /\ issued w (step (Elapse d) w) = [mkRequest 1 true params]
    /\ results (render (initial_state url)) = NoResults
    /\ loadingIndicator (render (initial_state url)) = false
    /\ results (render (st (run evs w))) =
         Grid [] (Some (mkButton true "Cargando..."))
    /\ loadingIndicator (render (st (run evs w))) = true.
Proof.
  intros url t0 d evs Hd Hno w params.
  split; [reflexivity|]. split.
  - destruct (step_elapse_fire w d (armed_mount url t0) Hd) as [Hreq _].
    apply issued_app. rewrite Hreq. reflexivity.
  - split; [reflexivity|]. split; [reflexivity|].
    destruct (waiting_for_first_response evs w Hno eq_refl eq_refl eq_refl)
      as (Hl & Hdoc & Hm).
    unfold render. simpl. rewrite Hl, Hdoc, Hm. split; reflexivity.
Qed.

Lemma mount_fetches_twice_witness :
  map r_isNewSearch
    (issued (mount [("query", "tesis")] 0)
       (step (Elapse 500) (mount [("query", "tesis")] 0))) = [true]
  /\ loadingIndicator
       (render (st (run [ChangeTerm "tesis 2"; Elapse 500]
                      (mount [("query", "tesis")] 0)))) = true.
Proof.
  assert (Hno : Forall no_completion [ChangeTerm "tesis 2"; Elapse 500])
    by (repeat constructor).
  destruct (mount_fetches_twice [("query", "tesis")] 0 500
              [ChangeTerm "tesis 2"; Elapse 500] (le_n 500) Hno)
    as (_ & Hi & _ & _ & _ & Hl).
  split; [rewrite Hi; reflexivity | exact Hl].
Defined.

Lemma enabled_button (s : State) (cards : list DocumentSummary) (lbl : string) :
  results (render s) = Grid cards (Some (mkButton false lbl)) ->
  loading s = false /\ hasMore s = true /\ cards = documents s.
Proof.
  unfold render. simpl.
  destruct ((length (documents s) =? 0)%nat && negb (loading s)); [discriminate|].
  destruct (hasMore s); [|discriminate].
  destruct (loading s); [discriminate|].
  intros [= H1 _]. auto.
Qed.

Lemma step_load_more_open (w : World) :
  wf_world w ->
  loading (st w) = false -> hasMore (st w) = true ->
  let w1 := step LoadMore w in
  armed w1
  /\ st w1 = setLoading true (setPage (fun prevPage => (prevPage + 1)%Z) (st w))
  /\ requests w1 =
       requests w ++
         [mkRequest (length (requests w)) false
            (searchParams (searchTerm (st w)) (filters (st w)) (page (st w) + 1))].
Proof.
  intros Hw Hl Hm w1. subst w1. unfold step. simpl. unfold handleLoadMore.
  rewrite Hl, Hm. simpl. unfold commit, armed. simpl.
  rewrite String.eqb_refl, Nat.eqb_refl.
  assert (Hp : (page (st w) =? page (st w) + 1)%Z = false)
    by (apply Z.eqb_neq; lia).
  rewrite Hp. simpl.
  rewrite (drop_timer_all (handler w) (timers w) (proj2 Hw)).
  repeat split.
Qed.

(** X8.  Whenever the view shows the load-more button enabled, a click on it
    raises the page by one and makes exactly one call, an appending fetch
    for the next page with the current term and filters.  Since the page is
    a dependency of the debounced effect, the click also schedules a new
    search: once the delay has passed, a second call asks for page 1 of the
    same term and filters as a new search, while the page cell keeps its
    raised value. *)
Theorem enabled_button_loads_next_page_then_searches_again :
  forall (url : URLSearchParams.t) (t0 : nat) (evs : list Event)
         (cards : list DocumentSummary) (lbl : string) (d : nat),
    let w := run evs (mount url t0) in
    results (render (st w)) = Grid cards (Some (mkButton false lbl)) ->
    DEBOUNCE_MS <= d ->
    let w1 := step LoadMore w in
    let w2 := step (Elapse d) w1 in
    page (st w1) = (page (st w) + 1)%Z
    /\ loading (st w1) = true
    /\ issued w w1 =
         [mkRequest (length (requests w)) false
            (searchParams (searchTerm (st w)) (filters (st w)) (page (st w) + 1))]
    /\ issued w1 w2 =
         [mkRequest (S (length (requests w))) true
            (searchParams (searchTerm (st w)) (filters (st w)) 1)]
    /\ page (st w2) = (page (st w) + 1)%Z.
Proof.
  intros url t0 evs cards lbl d w Hview Hd w1 w2.
  destruct (enabled_button _ _ _ Hview) as (Hl & Hm & _).
  destruct (step_load_more_open w (wf_reachable url t0 evs) Hl Hm)
    as (Ha & Hst & Hreq).
  fold w1 in Ha, Hst, Hreq.
  destruct (step_elapse_fire w1 d Ha Hd) as [Hreq2 _]. fold w2 in Hreq2.
  split; [rewrite Hst; reflexivity|].
  split; [rewrite Hst; reflexivity|].
  split; [now apply issued_app|].
  split.
  - apply issued_app. rewrite Hreq2, Hreq, Hst, length_app. simpl.
    rewrite Nat.add_1_r. reflexivity.
  - pose proof (page_kept (Elapse d) w1) as Hk. simpl in Hk. fold w2 in Hk.
    rewrite Hk, Hst. reflexivity.
Qed.

Lemma enabled_button_witness :
  let w := run [Resolve 0 (mkResponse [Doc 1] 3)] (mount [] 0) in
  let w1 := step LoadMore w in
  map r_isNewSearch (issued w1 (step (Elapse 500) w1)) = [true]
  /\ page (st w1) = 2%Z.
Proof.
  intros w w1.
  destruct (enabled_button_loads_next_page_then_searches_again
              [] 0 [Resolve 0 (mkResponse [Doc 1] 3)] [Doc 1]
              "Cargar más resultados" 500 eq_refl (le_n 500))
    as (Hp & _ & _ & Hi & _).
  fold w in Hp, Hi. fold w1 in Hp, Hi. rewrite Hi. split; [reflexivity | exact Hp].
Defined.

Lemma find_pending_settle_other (ida idb : nat) (l : list (nat * Pending)) :
  ida <> idb ->
  find_pending ida (filter (fun ip => negb (fst ip =? idb)%nat) l) = find_pending ida l.
Proof.
  intros Hne. induction l as [|[i q] l IH]; simpl; [reflexivity|].
  destruct (Nat.eqb_spec i idb) as [->|Hb]; simpl.
  - destruct (Nat.eqb_spec idb ida); [congruence | exact IH].
  - destruct (i =? ida)%nat; [reflexivity | exact IH].
Qed.

(** X9.  Responses are applied in the order they arrive, not in the order the
    calls were made.  With an appending call and a new search both in
    flight: if the new search is answered first, the late response of the
    appending call is added to the new results; if it is answered last, it
    replaces everything.  In both orders [hasMore] and the address are
    those of the response that arrived last. *)
Theorem responses_apply_in_arrival_order :
  forall (w : World) (ida idb : nat) (pa pb : Pending) (ra rb : Response),
    ida <> idb ->
    find_pending ida (inflight w) = Some pa ->
    find_pending idb (inflight w) = Some pb ->
    p_isNewSearch pa = false ->
    p_isNewSearch pb = true ->
    let wab := run [Resolve ida ra; Resolve idb rb] w in
    let wba := run [Resolve idb rb; Resolve ida ra] w in
    documents (st wab) = data rb
    /\ documents (st wba) = data rb ++ data ra
    /\ hasMore (st wab) = (p_currentPage pb <? totalPages rb)%Z
    /\ hasMore (st wba) = (p_currentPage pa <? totalPages ra)%Z
    /\ location wab =
         rewrite_query (p_searchParams pb)
           (rewrite_query (p_searchParams pa) (location w))
    /\ location wba =
         rewrite_query (p_searchParams pa)
           (rewrite_query (p_searchParams pb) (location w)).
Proof.
  intros w ida idb pa pb ra rb Hne Ha Hb Hna Hnb wab wba.
  subst wab wba. rewrite !run_cons. unfold run. simpl.
  rewrite (step_resolve w ida pa ra Ha), (step_resolve w idb pb rb Hb).
  rewrite (step_resolve _ idb pb rb), (step_resolve _ ida pa ra).
  - simpl. rewrite Hna, Hnb. repeat split.
  - simpl. rewrite find_pending_settle_other by assumption. exact Ha.
  - simpl. rewrite find_pending_settle_other by auto. exact Hb.
Qed.

Lemma responses_order_witness :
  let w := run [Elapse 500] (mount [] 0) in
  documents (st (run [Resolve 0 (mkResponse [Doc 1] 3);
                      Resolve 1 (mkResponse [Doc 2] 3)] w)) = [Doc 2]
  /\ documents (st (run [Resolve 1 (mkResponse [Doc 2] 3);
                         Resolve 0 (mkResponse [Doc 1] 3)] w)) = [Doc 2; Doc 1].
Proof.
  intros w.
  destruct (responses_apply_in_arrival_order w 0 1
              (mkPending false 1 (searchParams "" (filters (st w)) 1))
              (mkPending true 1 (searchParams "" (filters (st w)) 1))
              (mkResponse [Doc 1] 3) (mkResponse [Doc 2] 3))
    as (H1 & H2 & _); try reflexivity; [discriminate|].
  split; assumption.
Defined.

(** X10.  A search that fails while the list is empty is shown as a search
    without results: the view shows the no-results message, without the
    loading indicator and without any sign of the failure. *)
Theorem failed_search_on_empty_list_shows_no_results :
  forall (w : World) (id : nat) (p : Pending) (e : JS.thrown),
    find_pending id (inflight w) = Some p ->
    documents (st w) = [] ->
    let v := render (st (step (Reject id e) w)) in
    results v = NoResults /\ loadingIndicator v = false.
Proof.
  intros w id p e Hp Hd v. subst v.
  rewrite (step_reject w id p e Hp). unfold render. simpl.
  rewrite Hd. split; reflexivity.
Qed.

Lemma failed_search_witness :
  results (render (st (step (Reject 0 JS.ThrownNull) (mount [] 0)))) = NoResults.
Proof.
  apply (failed_search_on_empty_list_shows_no_results (mount [] 0) 0
           (mkPending false 1
              (searchParams "" (filters (st (mount [] 0))) 1))
           JS.ThrownNull eq_refl eq_refl).
Defined.

End Pagination.

(** ** The address as a store of the search *)

Section AddressRoundTrip.

Import DocumentSearch.

Lemma get_hd_getAll (k : string) (u : URLSearchParams.t) :
  URLSearchParams.get k u = hd_error (URLSearchParams.getAll k u).
Proof.
  induction u as [|[k0 v0] u IH]; simpl; [reflexivity|].
  destruct (k0 =? k); [reflexivity | exact IH].
Qed.

Lemma or_empty_mirrored (v : string) :
  JS.or_empty (hd_error (mirrored (JS.VStr v))) = v.
Proof.
  unfold mirrored. simpl.
  destruct (String.eqb_spec v "") as [->|Hne]; reflexivity.
Qed.

(** X11.  Reading back what was written: mounting the component at the address
    written after a successful search restores the term of that search and
    the value of each of the four filters, empty ones included, whatever
    the address held before.  The page is not restored: the component
    starts again at page 1 with an empty list.  (The term comes back only
    if no filter is named [query].) *)
Theorem address_restores_term_and_filters :
  forall (term : string) (fs : JS.obj string) (cp : Z) (u : URLSearchParams.t),
    JS.well_formed fs ->
    JS.get "query" fs = None ->
    let s := initial_state (rewrite_query (searchParams term fs cp) u) in
    searchTerm s = term
    /\ (forall k v, In k FILTER_KEYS -> JS.get k fs = Some v ->
                    JS.get k (filters s) = Some v)
    /\ page s = 1%Z /\ documents s = [].
Proof.
  intros term fs cp u Hwf Hq s.
  assert (Hread : forall k v,
            JS.get k (searchParams term fs cp) = Some (JS.VStr v) ->
            JS.or_empty
              (URLSearchParams.get k (rewrite_query (searchParams term fs cp) u)) = v).
  { intros k v Hk. rewrite get_hd_getAll.
    rewrite getAll_rewrite_query by apply searchParams_well_formed.
    rewrite Hk. apply or_empty_mirrored. }
  split; [|split; [|split; reflexivity]].
  - subst s. simpl. apply Hread.
    rewrite searchParams_get by assumption.
    rewrite Hq. reflexivity.
  - intros k v Hin Hv.
    assert (Hk : JS.get k (searchParams term fs cp) = Some (JS.VStr v)).
    { rewrite searchParams_get by assumption. now rewrite Hv. }
    subst s. simpl in Hin.
    destruct Hin as [<-|[<-|[<-|[<-|[]]]]]; simpl; f_equal; now apply Hread.
Qed.

Lemma address_restores_witness :
  let s := initial_state
             (rewrite_query
                (searchParams "tesis"
                   [("category", "Ciencias"); ("university", "");
                    ("fromDate", ""); ("toDate", "")] 3)
                [("query", "old"); ("university", "UNAM")]) in
  searchTerm s = "tesis" /\ page s = 1%Z.
Proof.
  intros s.
  destruct (address_restores_term_and_filters "tesis"
              [("category", "Ciencias"); ("university", "");
               ("fromDate", ""); ("toDate", "")] 3
              [("query", "old"); ("university", "UNAM")])
    as (Ht & _ & Hp & _).
  - unfold JS.well_formed. simpl. repeat constructor; simpl; intuition discriminate.
  - reflexivity.
  - split; assumption.
Defined.

Lemma delete_noop (k : string) (u : URLSearchParams.t) :
  URLSearchParams.getAll k u = [] -> URLSearchParams.delete k u = u.
Proof.
  induction u as [|[k0 v0] u IH]; simpl; [reflexivity|].
  destruct (k0 =? k); simpl; [discriminate|].
  intros H. f_equal. apply IH, H.
Qed.

Lemma set_noop (k v : string) (u : URLSearchParams.t) :
  URLSearchParams.getAll k u = [v] -> URLSearchParams.set k v u = u.
Proof.
  induction u as [|[k0 v0] u IH]; simpl; [discriminate|].
  destruct (String.eqb_spec k0 k) as [->|Hne].
  - intros [= -> H]. f_equal. now apply delete_noop.
  - intros H. f_equal. apply IH, H.
Qed.

Lemma rewrite_query_fixed (params : JS.obj JS.value) (u : URLSearchParams.t) :
  (forall k v, In (k, v) params -> URLSearchParams.getAll k u = mirrored v) ->
  rewrite_query params u = u.
Proof.
  unfold rewrite_query.
  induction params as [|[k v] ps IH]; simpl; intros H; [reflexivity|].
  assert (Hk : (if JS.truthy v
                then URLSearchParams.set k (JS.to_string v) u
                else URLSearchParams.delete k u) = u).
  { pose proof (H k v (or_introl eq_refl)) as Hkv. unfold mirrored in Hkv.
    destruct (JS.truthy v); [now apply set_noop | now apply delete_noop]. }
  rewrite Hk. apply IH. intros k' v' Hin. apply H. now right.
Qed.

Lemma in_get {V : Type} (k : string) (v : V) (o : JS.obj V) :
  JS.well_formed o -> In (k, v) o -> JS.get k o = Some v.
Proof.
  unfold JS.well_formed.
  induction o as [|[k0 v0] o IH]; simpl; intros Hnd Hin; [contradiction|].
  inversion Hnd as [|? ? Hnotin Hnd']; subst.
  destruct Hin as [[= -> ->]|Hin].
  - now rewrite String.eqb_refl.
  - destruct (String.eqb_spec k0 k) as [->|Hne]; [|now apply IH].
    exfalso. apply Hnotin. unfold JS.keys.
    change k with (fst (k, v)). now apply in_map.
Qed.

(** X12.  Writing the same parameters again changes nothing in the address:
    [updateUrlWithSearchParams] is idempotent.  A repeated identical search
    therefore leaves the address as it is, and still pushes one more
    history entry, equal to the one before. *)
Theorem rewriting_the_address_is_idempotent :
  forall (url : URLSearchParams.t) (t0 : nat) (evs : list Event)
         (id : nat) (p : Pending) (response : Response),
    let w := run evs (mount url t0) in
    find_pending id (inflight w) = Some p ->
    let w' := step (Resolve id response) w in
    rewrite_query (p_searchParams p) (location w') = location w'
    /\ (location w = rewrite_query (p_searchParams p) (location w) ->
        location w' = location w /\ history w' = history w ++ [location w]).
Proof.
  intros url t0 evs id p response w Hp w'.
  assert (Hwf : JS.well_formed (p_searchParams p)).
  { destruct (wf_reachable url t0 evs) as [H1 _].
    destruct (H1 id p (find_pending_in _ _ _ Hp)) as [(term & fs & ->) _].
    apply searchParams_well_formed. }
  subst w'. rewrite (step_resolve w id p response Hp). simpl. split.
  - apply rewrite_query_fixed. intros k v Hin.
    rewrite getAll_rewrite_query by assumption.
    now rewrite (in_get k v _ Hwf Hin).
  - intros Heq. rewrite <- Heq. split; reflexivity.
Qed.

Lemma rewriting_idempotent_witness :
  let w := run [] (mount [("ref", "x")] 0) in
  let w' := step (Resolve 0 (mkResponse [] 1)) w in
  rewrite_query (searchParams "" (filters (st w)) 1) (location w') = location w'.
Proof.
  intros w w'.
  apply (proj1 (rewriting_the_address_is_idempotent [("ref", "x")] 0 [] 0
                  (mkPending false 1 (searchParams "" (filters (st w)) 1))
                  (mkResponse [] 1) eq_refl)).
Defined.

End AddressRoundTrip.

(** ** The states of the landing page *)

Section LandingPageStates.

Import HomePage.

Lemma state_invariant_step (ev : Event) (w : World) :
  state_invariant w -> state_invariant (step ev w).
Proof.
  intros (Hd & Hinit & Hload & Hshape).
  destruct (settled w) eqn:Hs.
  - (* settled: nothing is written any more *)
    destruct (settled_step ev w Hs) as (Hs' & Hh & _).
    unfold state_invariant. rewrite Hs', Hh.
    split; [|split; [discriminate|split; [|exact Hshape]]].
    + destruct ev; simpl;
        destruct (documentsData w) eqn:Hdd, (postsData w) eqn:Hpd;
        simpl in Hd; try discriminate; simpl;
        unfold promise_all; simpl; rewrite ?Hs; simpl;
        rewrite ?Hdd, ?Hpd; reflexivity.
    + intros Hm _. apply Hload; [|reflexivity].
      revert Hm. destruct ev; simpl;
        try (destruct (is_waiting (documentsData w)));
        try (destruct (is_waiting (postsData w)));
        unfold promise_all; simpl; rewrite ?Hs; simpl; auto; discriminate.
  - (* not settled: the state is the initial one *)
    specialize (Hinit eq_refl). unfold state_invariant.
    symmetry in Hd.
    destruct ev; simpl;
      destruct (documentsData w) eqn:Hdd, (postsData w) eqn:Hpd;
      simpl in Hd; try discriminate; simpl;
      unfold promise_all, all_rejected, all_fulfilled, finally, call; simpl;
      rewrite ?Hs, ?Hdd, ?Hpd, ?Hinit; simpl;
      destruct (mounted w) eqn:Hm; simpl; rewrite ?Hs, ?Hdd, ?Hpd, ?Hinit; simpl.
    all: repeat split; intros; try congruence; try reflexivity;
      try (left; reflexivity);
      try (right; left; eexists; reflexivity);
      try (right; right; do 2 eexists; reflexivity).
Qed.

Lemma state_invariant_run (evs : list Event) (w : World) :
  state_invariant w -> state_invariant (run evs w).
Proof.
  unfold run. revert w. induction evs as [|ev evs IH]; simpl; intros w Hw; [assumption|].
  apply IH. now apply state_invariant_step.
Qed.

Lemma state_invariant_mount : state_invariant mount.
Proof.
  unfold state_invariant. simpl.
  split; [reflexivity|]. split; [reflexivity|]. split; [discriminate|].
  left. reflexivity.
Qed.



Lemma mounted_step (ev : Event) (w : World) :
  ev <> Unmount -> mounted (step ev w) = mounted w.
Proof.
  intros Hne. destruct ev; simpl; try congruence;
    try (destruct (is_waiting (documentsData w)));
    try (destruct (is_waiting (postsData w)));
    try reflexivity;
    unfold promise_all; simpl; destruct (settled w); try reflexivity;
    destruct (documentsData w), (postsData w); simpl; try reflexivity;
    unfold all_rejected, all_fulfilled, finally, call; simpl;
    destruct (mounted w) eqn:Hm; simpl; rewrite ?Hm; reflexivity.
Qed.

Lemma mounted_run (evs : list Event) (w : World) :
  Forall (fun ev => ev <> Unmount) evs -> mounted (run evs w) = mounted w.
Proof.
  unfold run. revert w. induction evs as [|ev evs IH]; simpl; intros w H; [reflexivity|].
  inversion H; subst. rewrite IH by assumption. now apply mounted_step.
Qed.

(** X17.  While the component stays mounted, the loading placeholder is shown
    exactly as long as no fetch has rejected and at least one is still
    pending: the first rejection, or the second resolution, removes it. *)
Theorem spinner_until_decided :
  forall evs : list Event,
    Forall (fun ev => ev <> Unmount) evs ->
    let w := run evs mount in
    render (hst w) = LoadingSpinner
    <-> decided (documentsData w) (postsData w) = false.
Proof.
  intros evs Hno w.
  destruct (state_invariant_run evs mount state_invariant_mount)
    as (Hd & Hinit & Hload & _).
  fold w in Hd, Hinit, Hload. rewrite <- Hd.
  assert (Hm : mounted w = true) by (subst w; now rewrite mounted_run).
  split.
  - intros Hr. destruct (settled w) eqn:Hs; [|reflexivity].
    specialize (Hload Hm eq_refl). unfold render in Hr. rewrite Hload in Hr.
    revert Hr.
    destruct (error (hst w)) as [e|]; [destruct (negb (e =? ""))|];
      intros H; discriminate H.
  - intros Hs. rewrite (Hinit Hs). reflexivity.
Qed.

Lemma spinner_witness :
  render (hst (run [PostsResolve Null] mount)) = LoadingSpinner.
Proof.
  assert (Hno : Forall (fun ev => ev <> Unmount) [PostsResolve Null]).
  { repeat constructor. discriminate. }
  apply (proj2 (spinner_until_decided [PostsResolve Null] Hno)). reflexivity.
Defined.

(** X19.  Once [Promise.all] has settled, by a rejection or by the second
    resolution, no later event, be it the completion of the other fetch, a
    repeated completion or the unmount, changes the state or calls a
    setter. *)
Theorem nothing_changes_after_settlement :
  forall evs later : list Event,
    settled (run evs mount) = true ->
    hst (run (evs ++ later) mount) = hst (run evs mount)
    /\ calls (run (evs ++ later) mount) = calls (run evs mount)
    /\ render (hst (run (evs ++ later) mount)) = render (hst (run evs mount)).
Proof.
  intros evs later Hs. rewrite run_app_home.
  destruct (settled_run later (run evs mount) Hs) as [Hh Hc].
  rewrite Hh, Hc. repeat split.
Qed.

Lemma nothing_changes_witness :
  hst (run ([PostsReject JS.ThrownNull]
              ++ [DocumentsResolve (Array [Item 1]); Unmount]) mount)
  = hst (run [PostsReject JS.ThrownNull] mount).
Proof.
  apply (nothing_changes_after_settlement [PostsReject JS.ThrownNull]
           [DocumentsResolve (Array [Item 1]); Unmount] eq_refl).
Defined.

End LandingPageStates.

(** ** From a category link to a filtered search *)

Section CategoryLinks.

Lemma decode_encode_byte (a : ascii) (rest : string) :
  URLSearchParams.percent_decode (JS.encode_byte a ++ rest)
  = String a (URLSearchParams.percent_decode rest).
Proof.
  destruct a as [[|] [|] [|] [|] [|] [|] [|] [|]]; reflexivity.
Qed.

Lemma percent_decode_encode (s : string) :
  URLSearchParams.percent_decode (JS.encodeURIComponent s) = s.
Proof.
  induction s as [|a s IH]; simpl; [reflexivity|].
  now rewrite decode_encode_byte, IH.
Qed.

Lemma has_char_app (c : ascii) (s1 s2 : string) :
  JS.has_char c (s1 ++ s2) = JS.has_char c s1 || JS.has_char c s2.
Proof.
  induction s1 as [|a s1 IH]; simpl; [reflexivity|].
  now rewrite IH, orb_assoc.
Qed.

(** The separators of a location and of a query string never occur in an
    encoded component. *)
Lemma encode_byte_no_separator (a : ascii) :
  JS.has_char "#" (JS.encode_byte a) = false
  /\ JS.has_char "&" (JS.encode_byte a) = false
  /\ JS.has_char "=" (JS.encode_byte a) = false
  /\ JS.has_char "+" (JS.encode_byte a) = false.
Proof.
  destruct a as [[|] [|] [|] [|] [|] [|] [|] [|]]; repeat split; reflexivity.
Qed.

Lemma encode_no_separator (s : string) :
  JS.has_char "#" (JS.encodeURIComponent s) = false
  /\ JS.has_char "&" (JS.encodeURIComponent s) = false
  /\ JS.has_char "=" (JS.encodeURIComponent s) = false
  /\ JS.has_char "+" (JS.encodeURIComponent s) = false.
Proof.
  induction s as [|a s (H1 & H2 & H3 & H4)]; simpl; [repeat split|].
  destruct (encode_byte_no_separator a) as (E1 & E2 & E3 & E4).
  rewrite !has_char_app, H1, H2, H3, H4, E1, E2, E3, E4. repeat split.
Qed.

Lemma take_until_none (c : ascii) (s : string) :
  JS.has_char c s = false -> Router.take_until c s = s.
Proof.
  induction s as [|a s IH]; simpl; [reflexivity|].
  destruct (Ascii.eqb a c); simpl; [discriminate|].
  intros H. now rewrite IH.
Qed.

Lemma split_on_none (c : ascii) (s : string) :
  JS.has_char c s = false -> URLSearchParams.split_on c s = [s].
Proof.
  induction s as [|a s IH]; simpl; [reflexivity|].
  destruct (Ascii.eqb a c); simpl; [discriminate|].
  intros H. now rewrite IH.
Qed.

Lemma plus_to_space_none (s : string) :
  JS.has_char "+" s = false -> URLSearchParams.plus_to_space s = s.
Proof.
  induction s as [|a s IH]; simpl; [reflexivity|].
  destruct (Ascii.eqb a "+"); simpl; [discriminate|].
  intros H. now rewrite IH.
Qed.

(** X20.  Following a category link of the landing page opens the search with
    that category as its filter: for every category text, the query string
    of the link parses to the single pair [category], with the text itself
    as its value, whatever characters it contains.  Mounted there, the
    search controller starts with an empty term, that category and no other
    filter, at page 1, and its first call carries the category. *)
Theorem category_link_opens_filtered_search :
  forall (category : string) (t0 : nat),
    let url :=
      URLSearchParams.of_search (Router.search_of (HomePage.category_link category)) in
    let w := DocumentSearch.mount url t0 in
    url = [("category", category)]
    /\ DocumentSearch.searchTerm (DocumentSearch.st w) = ""
    /\ DocumentSearch.filters (DocumentSearch.st w) =
         [("category", category); ("university", "");
          ("fromDate", ""); ("toDate", "")]
    /\ DocumentSearch.page (DocumentSearch.st w) = 1%Z
    /\ map (fun r => JS.get "category" (DocumentSearch.r_params r))
         (DocumentSearch.requests w) = [Some (JS.VStr category)].
Proof.
  intros category t0 url w.
  destruct (encode_no_separator category) as (Hh & Ha & He & Hp).
  assert (Hurl : url = [("category", category)]).
  { subst url. unfold HomePage.category_link, Router.search_of.
    rewrite take_until_none
      by (rewrite has_char_app, Hh; reflexivity).
    cbn [Router.drop_until String.append Ascii.eqb Bool.eqb].
    unfold URLSearchParams.of_search, URLSearchParams.parse.
    rewrite split_on_none
      by (change (JS.has_char "&"
                    ("category=" ++ JS.encodeURIComponent category)%string = false);
          rewrite has_char_app, Ha; reflexivity).
    cbn [flat_map app String.eqb Ascii.eqb Bool.eqb
         URLSearchParams.split_first fst snd].
    rewrite (plus_to_space_none _ Hp), percent_decode_encode.
    reflexivity. }
  split; [exact Hurl|]. subst w. rewrite Hurl.
  repeat split.
Qed.

End CategoryLinks.

(** ** Responses, the last page and the timer *)

Section ResponsesAndTimer.

Import DocumentSearch.

Lemma step_unknown_completion (w : World) (id : nat) :
  find_pending id (inflight w) = None ->
  (forall r, step (Resolve id r) w = w) /\ (forall e, step (Reject id e) w = w).
Proof.
  intros Hn. split; intros x; unfold step; simpl; rewrite Hn;
    apply commit_same_deps; reflexivity.
Qed.

(** X21.  A response, successful or not, never touches the debounce: the pending
    timer, the term, the filters and the page are left as they are, and no
    call is made in reaction to it. *)
Theorem responses_leave_the_debounce_alone :
  forall (w : World) (id : nat) (response : Response) (error : JS.thrown),
    let w1 := step (Resolve id response) w in
    let w2 := step (Reject id error) w in
    timers w1 = timers w /\ timers w2 = timers w
    /\ closure_of (st w1) = closure_of (st w)
    /\ closure_of (st w2) = closure_of (st w)
    /\ issued w w1 = [] /\ issued w w2 = [].
Proof.
  intros w id response error w1 w2. subst w1 w2.
  destruct (find_pending id (inflight w)) as [p|] eqn:Hp.
  - rewrite (step_resolve w id p response Hp), (step_reject w id p error Hp).
    simpl. repeat split; apply issued_app; simpl; now rewrite app_nil_r.
  - destruct (step_unknown_completion w id Hp) as [H1 H2].
    rewrite H1, H2. repeat split; apply issued_same.
Qed.

(** X22.  A response that reports no page beyond the one asked for clears
    [hasMore]: the view then offers no load-more button, and a load-more is
    ignored until a later response reports more pages. *)
Theorem last_page_hides_and_blocks_load_more :
  forall (w : World) (id : nat) (p : Pending) (response : Response),
    find_pending id (inflight w) = Some p ->
    (totalPages response <= p_currentPage p)%Z ->
    let w' := step (Resolve id response) w in
    hasMore (st w') = false
    /\ step LoadMore w' = w'
    /\ match results (render (st w')) with
       | NoResults => True
       | Grid _ button => button = None
       end.
Proof.
  intros w id p response Hp Hlast w'.
  assert (Hm : hasMore (st w') = false).
  { subst w'. rewrite (step_resolve w id p response Hp). simpl.
    apply Z.ltb_ge. exact Hlast. }
  split; [exact Hm|]. split.
  - apply step_load_more_blocked. now right.
  - unfold render. simpl. rewrite Hm.
    destruct ((length (documents (st w')) =? 0)%nat && negb (loading (st w')));
      [exact I | reflexivity].
Qed.

Lemma last_page_witness :
  let w' := step (Resolve 0 (mkResponse [Doc 1] 1)) (mount [] 0) in
  hasMore (st w') = false /\ step LoadMore w' = w'.
Proof.
  intros w'.
  destruct (last_page_hides_and_blocks_load_more (mount [] 0) 0
              (mkPending false 1
                 (searchParams "" (filters (st (mount [] 0))) 1))
              (mkResponse [Doc 1] 1) eq_refl) as (H1 & H2 & _).
  - simpl. lia.
  - split; assumption.
Defined.

End ResponsesAndTimer.

(** ** Error objects on the landing page *)

Section ErrorObjects.

Import HomePage.

(** X23.  A rejection with an [Error] object whose name is not empty always ends
    in the error view: the text shown is the message, or the name when the
    message is empty, and it is never empty. *)
Theorem error_objects_always_show_the_error_view :
  forall (name message : string) (pre post : list Event),
    name <> "" ->
    first_rejection (JS.ErrorObject name message) pre ->
    let text := if message =? "" then name else message in
    text <> ""
    /\ render (hst (run (pre ++ post) mount)) = ErrorMessage ("Error: " ++ text)%string.
Proof.
  intros name message pre post Hname Hpre text.
  assert (Htext : JS.message_or_string (JS.ErrorObject name message) = text).
  { subst text. simpl. destruct (String.eqb_spec message "") as [->|Hm]; simpl.
    - apply String.eqb_neq in Hname. now rewrite Hname.
    - reflexivity. }
  assert (Hne : text <> "").
  { subst text. destruct (String.eqb_spec message ""); assumption. }
  split; [exact Hne|].
  rewrite run_app_home.
  assert (Hs : hst (run post (run pre mount))
               = mkState [] [] false (Some text)).
  { rewrite <- Htext.
    inversion Hpre; subst;
      match goal with
      | |- context [run post ?w] =>
          rewrite (proj1 (settled_run post w eq_refl)); reflexivity
      end. }
  rewrite Hs. unfold render. simpl.
  apply String.eqb_neq in Hne. rewrite Hne. reflexivity.
Qed.

Lemma error_objects_witness :
  render (hst (run ([PostsReject (JS.ErrorObject "TypeError" "")] ++ []) mount))
  = ErrorMessage "Error: TypeError".
Proof.
  apply (error_objects_always_show_the_error_view "TypeError" "" _ []).
  - discriminate.
  - constructor.
Defined.

End ErrorObjects.

(** ** The calls of a burst *)

Section BurstCalls.

Import DocumentSearch.













End BurstCalls.
